(** * The tracee event pipeline (tracee/pipeline.go)

    A shallow embedding of the four pipeline stages of [pipeline.go]
    (decodeRawEvent, processRawEvent, prepareEventForPrint, printEvent) and of
    the stack-trace resolver getStackTrace, followed by the properties of the
    pipeline design document stated over that embedding.

    Conventions.
    - A goroutine body [for x := range in { ... }] is embedded as the function
      that handles one received item; the stage is that function iterated
      over whatever the inbound channel delivers.  The interleaving of the
      four goroutines is the step relation [step] over channel contents.
    - A Go [error] is represented by its message.
    - A run-time panic (index or slice bound out of range) is the
      [Panicked] outcome.
    - The receiver [t *Tracee] is the record [Tracee]: it carries what the
      methods of this file reach through [t] and what they call outside this
      file (the binary reading primitives, the policy hooks, the BPF module,
      the name tables, newEvent). *)

From Stdlib Require Import ZArith NArith List String Ascii Lia.
From Stdlib.Strings Require Import Byte.
From Stdlib Require Import DecimalString Sorting.Sorted.
From stdpp Require Import base option list gmap strings sorting relations.
From Equations Require Import Equations.

Open Scope string_scope.
Open Scope list_scope.

(** ** Go values *)

(** A Go [error] value, by its message. *)
Definition error := string.

(** [type argTag uint8] (declared outside this file); its zero value is 0. *)
Abbreviation argTag := N (only parsing).

(** The result of a Go call that may panic. *)
Inductive outcome (A : Type) : Type :=
| Returned (a : A)
| Panicked.
Arguments Returned {A} a.
Arguments Panicked {A}.

Definition obind {A B} (o : outcome A) (k : A -> outcome B) : outcome B :=
  match o with
  | Returned a => k a
  | Panicked => Panicked
  end.

(** [strconv.IntSize]: 32 or 64, fixed by the platform the code is built for. *)
Inductive platform := Bits32 | Bits64.

Definition IntSize (p : platform) : nat :=
  match p with Bits32 => 32 | Bits64 => 64 end.

(** A Go slice: a window of [slen] visible bytes over a backing array; the
    capacity is the length of the backing array from the slice's start. *)
Record slice := MkSlice { backing : list byte; slen : nat }.

Definition scap (s : slice) : nat := length (backing s).

(** A slice as [make([]byte, n)] followed by writes gives it: len = cap. *)
Definition sliceOf (bs : list byte) : slice := MkSlice bs (length bs).

(** [s[i:j]] for a slice [s]: panics unless [i <= j <= cap(s)]. *)
Definition subslice (s : slice) (i j : nat) : outcome (list byte) :=
  if decide (i <= j /\ j <= scap s)
  then Returned (take (j - i) (drop i (backing s)))
  else Panicked.

(** [a[i] = x]: panics when [i] is out of range. *)
Definition storeAt {A} (i : nat) (x : A) (a : list A) : outcome (list A) :=
  if decide (i < length a) then Returned (<[i := x]> a) else Panicked.

(** [binary.LittleEndian.Uint64(b)]: the bounds check [_ = b[7]] and the
    eight bytes combined, least significant first. *)
Definition Uint64 (b : list byte) : outcome N :=
  match b with
  | b0 :: b1 :: b2 :: b3 :: b4 :: b5 :: b6 :: b7 :: _ =>
      Returned
        (N.lor (Byte.to_N b0)
        (N.lor (N.shiftl (Byte.to_N b1) 8)
        (N.lor (N.shiftl (Byte.to_N b2) 16)
        (N.lor (N.shiftl (Byte.to_N b3) 24)
        (N.lor (N.shiftl (Byte.to_N b4) 32)
        (N.lor (N.shiftl (Byte.to_N b5) 40)
        (N.lor (N.shiftl (Byte.to_N b6) 48)
               (N.shiftl (Byte.to_N b7) 56))))))))
  | _ => Panicked
  end.

(** [binary.LittleEndian.PutUint64]: the eight bytes of a word. *)
Definition PutUint64 (v : N) : list byte :=
  map (fun k => default x00 (Byte.of_N (N.land (N.shiftr v (8 * N.of_nat k)) 255)))
      (seq 0 8).

(** The digit table of package fmt for the verb [%X]. *)
Definition udigits : string := "0123456789ABCDEF".

Definition hexDigit (d : N) : ascii :=
  default "0"%char (String.get (N.to_nat d) udigits).

(** The digit loop of fmt's integer formatting in base 16:
    [for u >= 16 { buf[i] = digits[u&0xF]; u >>= 4 }; buf[i] = digits[u]],
    filling the buffer from its end. *)
Fixpoint fmtHexFrom (fuel : nat) (u : N) (acc : string) : string :=
  match fuel with
  | O => String (hexDigit u) acc
  | S fuel' =>
      if (16 <=? u)%N
      then fmtHexFrom fuel' (N.shiftr u 4) (String (hexDigit (N.land u 15)) acc)
      else String (hexDigit u) acc
  end.

(** [fmt.Sprintf("%X", u)]; a value of [k] bits has at most [k] digits. *)
Definition fmtHex (u : N) : string := fmtHexFrom (N.to_nat (N.size u)) u "".

(** [fmt.Sprintf("%d", z)] *)
Definition fmtDec (z : Z) : string := NilZero.string_of_int (Z.to_int z).

(** [strings.HasSuffix] and [strings.TrimSuffix] *)
Definition HasSuffix (s suffix : string) : bool :=
  (String.length suffix <=? String.length s)%nat &&
  String.eqb (String.substring (String.length s - String.length suffix)
                               (String.length suffix) s) suffix.

Definition TrimSuffix (s suffix : string) : string :=
  if HasSuffix s suffix
  then String.substring 0 (String.length s - String.length suffix) s
  else s.

(** [map.GetValue(key, valueSize)] of a BPF map and [module.GetMap(name)] of
    the BPF module (both outside this file). *)
Record BPFMap := MkBPFMap { GetValue : list byte -> nat -> error + slice }.
Record BPFModule := MkBPFModule { GetMap : string -> error + BPFMap }.

(** A [[4]byte] array and the slice [a[0:4]] over it. *)
Definition byte4 : Type := byte * byte * byte * byte.

Definition slice4 (a : byte4) : list byte :=
  let '(b0, b1, b2, b3) := a in [b0; b1; b2; b3].

Section Model.

(** [value] stands for the dynamic values held in [interface{}] (the decoded
    arguments), [meta] for the fields of the event header this file only passes
    through, [Event] for the printable record built by newEvent. *)
Context {value meta Event : Type}.

(** ** Data model *)

(** The event header.  The struct is declared outside this file; the fields
    are the ones this file reads. *)
Record context := MkContext {
  EventID : Z;
  Argnum : N;
  StackID : byte4;
  Meta : meta
}.

(** [type RawEvent struct { Ctx context; RawArgs map[argTag]interface{};
    ArgsTags []argTag }] *)
Record RawEvent := MkRawEvent {
  Ctx : context;
  RawArgs : gmap argTag value;
  ArgsTags : list argTag
}.

(** What the methods reach through the receiver [t *Tracee]. *)
Record Tracee := MkTracee {
  (** [binary.Read(dataBuff, binary.LittleEndian, &ctx)]: the header and the
      advanced cursor, or an error. *)
  readContext : list byte -> error + (context * list byte);
  (** [readArgFromBuff(dataBuff)]: tag and value or an error, and the cursor
      as the call leaves it. *)
  readArgFromBuff : list byte -> (error + (argTag * value)) * list byte;
  (** [t.shouldProcessEvent(rawEvent)] *)
  shouldProcessEvent : RawEvent -> bool;
  (** [t.processEvent(&rawEvent.Ctx, rawEvent.RawArgs)]: the error, if any,
      and the header and the map as the call leaves them. *)
  processEvent : context -> gmap argTag value -> option error * context * gmap argTag value;
  (** [t.shouldPrintEvent(rawEvent)] *)
  shouldPrintEvent : RawEvent -> bool;
  (** [t.prepareArgsForPrint(&rawEvent.Ctx, rawEvent.RawArgs)] *)
  prepareArgsForPrint : context -> gmap argTag value -> option error * context * gmap argTag value;
  (** [t.DecParamName[sel][tag]] with its comma-ok result. *)
  DecParamName : Z -> argTag -> option string;
  (** [strconv.IntSize] of the build. *)
  arch : platform;
  (** [t.bpfModule] *)
  bpfModule : BPFModule;
  (** [newEvent(ctx, argsNames, args, stackTrace)] *)
  newEvent : context -> list string -> list (option value) -> string -> error + Event
}.

(** ** decodeRawEvent (lines 50-84) *)

(** The state of the argument loop (lines 65-75): the map, the tag array, the
    errors sent on [errc], the cursor of [dataBuff]. *)
Record argLoop := MkArgLoop {
  al_rawArgs : gmap argTag value;
  al_argsTags : list argTag;
  al_errc : list error;
  al_buff : list byte
}.

(** One iteration of [for i := 0; i < int(ctx.Argnum); i++]. *)
Definition argIter (t : Tracee) (i : nat) (s : argLoop) : outcome argLoop :=
  match readArgFromBuff t (al_buff s) with
  | (inl err, buff') =>
      Returned (MkArgLoop (al_rawArgs s) (al_argsTags s) (al_errc s ++ [err]) buff')
  | (inr (tag, val), buff') =>
      obind (storeAt i tag (al_argsTags s)) (fun argsTags =>
      Returned (MkArgLoop (<[tag := val]> (al_rawArgs s)) argsTags (al_errc s) buff'))
  end.

(** The iterations [i, i+1, ..., i+n-1]. *)
Fixpoint argLoopFrom (t : Tracee) (n i : nat) (s : argLoop) : outcome argLoop :=
  match n with
  | O => Returned s
  | S n' => obind (argIter t i s) (argLoopFrom t n' (S i))
  end.

(** The body of [for dataRaw := range t.eventsChannel]: the errors sent on
    [errc] and the event sent on [out], if any. *)
Definition decodeRawEvent (t : Tracee) (dataRaw : list byte)
  : outcome (list error * option RawEvent) :=
  match readContext t dataRaw with
  | inl err => Returned ([err], None)
  | inr (ctx, dataBuff) =>
      let n := N.to_nat (Argnum ctx) in
      obind (argLoopFrom t n 0 (MkArgLoop ∅ (replicate n 0%N) [] dataBuff)) (fun s =>
      Returned (al_errc s, Some (MkRawEvent ctx (al_rawArgs s) (al_argsTags s))))
  end.

(** The results of [n] successive calls of readArgFromBuff from a cursor:
    what the wire holds, in wire order. *)
Fixpoint wireArgs (t : Tracee) (n : nat) (buff : list byte)
  : list (error + (argTag * value)) :=
  match n with
  | O => []
  | S n' => let '(r, buff') := readArgFromBuff t buff in r :: wireArgs t n' buff'
  end.

(** The cursor after [n] successive calls of readArgFromBuff. *)
Fixpoint wireCursor (t : Tracee) (n : nat) (buff : list byte) : list byte :=
  match n with
  | O => buff
  | S n' => wireCursor t n' (readArgFromBuff t buff).2
  end.

(** ** processRawEvent (lines 86-109) *)

(** What the loop body does that is visible outside it, in order. *)
Inductive procAction :=
| CallShouldProcess (rawEvent : RawEvent)
| CallProcessEvent (ctx : context) (args : gmap argTag value)
| ProcErr (err : error)
| ProcOut (rawEvent : RawEvent).

(** The body of [for rawEvent := range in]. *)
Definition processRawEvent (t : Tracee) (rawEvent : RawEvent) : list procAction :=
  CallShouldProcess rawEvent ::
  if negb (shouldProcessEvent t rawEvent) then []
  else
    CallProcessEvent (Ctx rawEvent) (RawArgs rawEvent) ::
    match processEvent t (Ctx rawEvent) (RawArgs rawEvent) with
    | (Some err, _, _) => [ProcErr err]
    | (None, ctx, rawArgs) => [ProcOut (MkRawEvent ctx rawArgs (ArgsTags rawEvent))]
    end.

Definition isHookCall (a : procAction) : bool :=
  match a with CallProcessEvent _ _ => true | _ => false end.

Definition procErrOf (a : procAction) : option error :=
  match a with ProcErr e => Some e | _ => None end.

Definition procOutOf (a : procAction) : option RawEvent :=
  match a with ProcOut ev => Some ev | _ => None end.

(** The errors sent on [errc] and the events sent on [out] by a run of
    actions. *)
Definition procErrs (tr : list procAction) : list error := omap procErrOf tr.
Definition procOuts (tr : list procAction) : list RawEvent := omap procOutOf tr.

(** The stage over everything its inbound channel delivers. *)
Definition processStage (t : Tracee) (inbound : list RawEvent) : list procAction :=
  concat (map (processRawEvent t) inbound).

(** ** getStackTrace (lines 111-139) *)

Definition stackFrameSize (t : Tracee) : nat := IntSize (arch t) / 8.
Definition maxStackDepth : nat := 20.

(** The loop of lines 130-136 from cursor [i] with the string built so far. *)
Equations? stackLoop (t : Tracee) (stackBytes : slice) (i : nat) (StackTrace : string)
  : outcome string by wf (slen stackBytes - i) lt :=
stackLoop t stackBytes i StackTrace with decide (i < slen stackBytes) := {
  | right _ => Returned StackTrace
  | left Hlt with obind (subslice stackBytes i (i + stackFrameSize t)) Uint64 := {
    | Panicked => Panicked
    | Returned stackAddr with N.eqb stackAddr 0 := {
      | true => Returned StackTrace
      | false =>
          stackLoop t stackBytes (i + stackFrameSize t)
                    (StackTrace +:+ "0x" +:+ fmtHex stackAddr +:+ ",") } } }.
Proof. unfold stackFrameSize. destruct (arch t); cbn; lia. Qed.

Definition getStackTrace (t : Tracee) (StackID : byte4) : outcome (string * option error) :=
  match GetMap (bpfModule t) "stack_traces" with
  | inl _ => Returned ("", None)
  | inr stackTracesMap =>
      match GetValue stackTracesMap (slice4 StackID) (stackFrameSize t * maxStackDepth) with
      | inl _ => Returned ("", None)
      | inr stackBytes =>
          obind (stackLoop t stackBytes 0 "") (fun StackTrace =>
          Returned (TrimSuffix StackTrace ",", None))
      end
  end.

(** ** prepareEventForPrint (lines 141-186) *)

(** [fmt.Errorf("Invalid arg tag for event %d", rawEvent.Ctx.EventID)] *)
Definition invalidArgTag (ctx : context) : error :=
  "Invalid arg tag for event " +:+ fmtDec (EventID ctx).

(** The state of the loop of lines 158-167. *)
Record nameLoop := MkNameLoop {
  nl_args : list (option value);
  nl_argsNames : list string;
  nl_errc : list error
}.

(** One iteration of [for i, tag := range rawEvent.ArgsTags]; a missing key
    of [rawEvent.RawArgs] reads as the nil interface, [None]. *)
Definition nameIter (t : Tracee) (ctx : context) (rawArgs : gmap argTag value)
    (i : nat) (tag : argTag) (s : nameLoop) : outcome nameLoop :=
  obind (storeAt i (rawArgs !! tag) (nl_args s)) (fun args =>
  match DecParamName t (Z.rem (EventID ctx) 2) tag with
  | Some argName =>
      obind (storeAt i argName (nl_argsNames s)) (fun argsNames =>
      Returned (MkNameLoop args argsNames (nl_errc s)))
  | None =>
      Returned (MkNameLoop args (nl_argsNames s) (nl_errc s ++ [invalidArgTag ctx]))
  end).

Fixpoint nameLoopFrom (t : Tracee) (ctx : context) (rawArgs : gmap argTag value)
    (tags : list argTag) (i : nat) (s : nameLoop) : outcome nameLoop :=
  match tags with
  | [] => Returned s
  | tag :: tags' =>
      obind (nameIter t ctx rawArgs i tag s) (nameLoopFrom t ctx rawArgs tags' (S i))
  end.

(** Lines 156-167: the two arrays are made, then filled. *)
Definition resolveNames (t : Tracee) (ctx : context) (rawArgs : gmap argTag value)
    (tags : list argTag) : outcome nameLoop :=
  let n := N.to_nat (Argnum ctx) in
  nameLoopFrom t ctx rawArgs tags 0 (MkNameLoop (replicate n None) (replicate n "") []).

(** The body of [for rawEvent := range in]: the errors sent on [errc] and the
    event sent on [out], if any. *)
Definition prepareEventForPrint (t : Tracee) (rawEvent : RawEvent)
  : outcome (list error * option Event) :=
  if negb (shouldPrintEvent t rawEvent) then Returned ([], None)
  else
    match prepareArgsForPrint t (Ctx rawEvent) (RawArgs rawEvent) with
    | (Some err, _, _) => Returned ([err], None)
    | (None, ctx, rawArgs) =>
        obind (resolveNames t ctx rawArgs (ArgsTags rawEvent)) (fun s =>
        obind (getStackTrace t (StackID ctx)) (fun st =>
        match newEvent t ctx (nl_argsNames s) (nl_args s) st.1 with
        | inl err => Returned (nl_errc s ++ [err], None)
        | inr evt => Returned (nl_errc s, Some evt)
        end))
    end.

(** ** The pipeline (lines 12-42 and 188-198)

    The four goroutines and the channels between them.  Every item carries
    the position of its raw buffer in the source, which the code does not
    have: it names the event across the stages.  A channel is the list of the
    items sent and not yet received, oldest first; capacities are not
    modelled, so the relation has every interleaving the program has. *)

Record pipeline := MkPipeline {
  eventsChannel : list (nat * list byte);
  rawEventChan : list (nat * RawEvent);
  processedEventChan : list (nat * RawEvent);
  printEventChan : list (nat * Event);
  (** the arguments of [t.printer.Print], in call order *)
  printed : list (nat * Event);
  (** [t.stats.eventCounter] *)
  eventCounter : N;
  (** what went to the error channels *)
  errors : list error;
  (** [done] is closed *)
  cancelled : bool;
  (** the goroutines that returned on [<-done], and whether one panicked *)
  decoderGone : bool;
  processorGone : bool;
  preparerGone : bool;
  crashed : bool
}.

Definition startPipeline (source : list (list byte)) : pipeline :=
  MkPipeline (zip (seq 0 (length source)) source) [] [] [] [] 0 []
             false false false false false.

(** What a stage does with the item it handled: [select] sends it on [out]
    or, once [done] is closed, may return instead. *)
Inductive step (t : Tracee) : pipeline -> pipeline -> Prop :=
| step_cancel p :
    step t p
      (MkPipeline (eventsChannel p) (rawEventChan p) (processedEventChan p)
         (printEventChan p) (printed p) (eventCounter p) (errors p)
         true (decoderGone p) (processorGone p) (preparerGone p) (crashed p))
| step_decode p k dataRaw rest errs out :
    crashed p = false -> decoderGone p = false ->
    eventsChannel p = (k, dataRaw) :: rest ->
    decodeRawEvent t dataRaw = Returned (errs, out) ->
    step t p
      (MkPipeline rest (rawEventChan p ++ from_option (fun ev => [(k, ev)]) [] out)
         (processedEventChan p)
         (printEventChan p) (printed p) (eventCounter p) (errors p ++ errs)
         (cancelled p) (decoderGone p) (processorGone p) (preparerGone p) (crashed p))
| step_decode_done p k dataRaw rest errs ev :
    crashed p = false -> decoderGone p = false -> cancelled p = true ->
    eventsChannel p = (k, dataRaw) :: rest ->
    decodeRawEvent t dataRaw = Returned (errs, Some ev) ->
    step t p
      (MkPipeline rest (rawEventChan p) (processedEventChan p)
         (printEventChan p) (printed p) (eventCounter p) (errors p ++ errs)
         (cancelled p) true (processorGone p) (preparerGone p) (crashed p))
| step_decode_panic p k dataRaw rest :
    crashed p = false -> decoderGone p = false ->
    eventsChannel p = (k, dataRaw) :: rest ->
    decodeRawEvent t dataRaw = Panicked ->
    step t p
      (MkPipeline rest (rawEventChan p) (processedEventChan p)
         (printEventChan p) (printed p) (eventCounter p) (errors p)
         (cancelled p) (decoderGone p) (processorGone p) (preparerGone p) true)
| step_process p k rawEvent rest :
    crashed p = false -> processorGone p = false ->
    rawEventChan p = (k, rawEvent) :: rest ->
    step t p
      (MkPipeline (eventsChannel p) rest
         (processedEventChan p ++
            map (pair k) (procOuts (processRawEvent t rawEvent)))
         (printEventChan p) (printed p) (eventCounter p)
         (errors p ++ procErrs (processRawEvent t rawEvent))
         (cancelled p) (decoderGone p) (processorGone p) (preparerGone p) (crashed p))
| step_process_done p k rawEvent rest ev :
    crashed p = false -> processorGone p = false -> cancelled p = true ->
    rawEventChan p = (k, rawEvent) :: rest ->
    procOuts (processRawEvent t rawEvent) = [ev] ->
    step t p
      (MkPipeline (eventsChannel p) rest (processedEventChan p)
         (printEventChan p) (printed p) (eventCounter p) (errors p)
         (cancelled p) (decoderGone p) true (preparerGone p) (crashed p))
| step_prepare p k rawEvent rest errs out :
    crashed p = false -> preparerGone p = false ->
    processedEventChan p = (k, rawEvent) :: rest ->
    prepareEventForPrint t rawEvent = Returned (errs, out) ->
    step t p
      (MkPipeline (eventsChannel p) (rawEventChan p) rest
         (printEventChan p ++ from_option (fun evt => [(k, evt)]) [] out)
         (printed p) (eventCounter p) (errors p ++ errs)
         (cancelled p) (decoderGone p) (processorGone p) (preparerGone p) (crashed p))
| step_prepare_done p k rawEvent rest errs evt :
    crashed p = false -> preparerGone p = false -> cancelled p = true ->
    processedEventChan p = (k, rawEvent) :: rest ->
    prepareEventForPrint t rawEvent = Returned (errs, Some evt) ->
    step t p
      (MkPipeline (eventsChannel p) (rawEventChan p) rest
         (printEventChan p) (printed p) (eventCounter p) (errors p ++ errs)
         (cancelled p) (decoderGone p) (processorGone p) true (crashed p))
| step_prepare_panic p k rawEvent rest :
    crashed p = false -> preparerGone p = false ->
    processedEventChan p = (k, rawEvent) :: rest ->
    prepareEventForPrint t rawEvent = Panicked ->
    step t p
      (MkPipeline (eventsChannel p) (rawEventChan p) rest
         (printEventChan p) (printed p) (eventCounter p) (errors p)
         (cancelled p) (decoderGone p) (processorGone p) (preparerGone p) true)
| step_print p k printEvent rest :
    crashed p = false ->
    printEventChan p = (k, printEvent) :: rest ->
    step t p
      (MkPipeline (eventsChannel p) (rawEventChan p) (processedEventChan p)
         rest (printed p ++ [(k, printEvent)]) (eventCounter p + 1) (errors p)
         (cancelled p) (decoderGone p) (processorGone p) (preparerGone p) (crashed p)).

(** The sequence numbers of everything in the pipeline, from the item nearest
    the printer to the item furthest from it. *)
Definition inFlight (p : pipeline) : list nat :=
  (printed p).*1 ++ (printEventChan p).*1 ++ (processedEventChan p).*1 ++
  (rawEventChan p).*1 ++ (eventsChannel p).*1.

(** What one raw buffer becomes when no stage drops it and [done] stays
    open: the composition of the three stage bodies. *)
Definition endToEnd (t : Tracee) (dataRaw : list byte) : option Event :=
  match decodeRawEvent t dataRaw with
  | Returned (_, Some rawEvent) =>
      match procOuts (processRawEvent t rawEvent) with
      | processed :: _ =>
          match prepareEventForPrint t processed with
          | Returned (_, Some evt) => Some evt
          | _ => None
          end
      | [] => None
      end
  | _ => None
  end.

End Model.

Arguments context : clear implicits.
Arguments RawEvent : clear implicits.
Arguments Tracee : clear implicits.
Arguments pipeline : clear implicits.
Arguments nameLoop : clear implicits.
Arguments argLoop : clear implicits.

(** ** Reference definitions

    What the design document's sentences say, to compare the stage bodies
    with. *)

(** The tag a wire argument leaves in its slot of the tag array: its own, or
    the zero value of the array when it did not decode. *)
Definition slotTag {value} (r : error + (N * value)) : N :=
  match r with inr (tag, _) => tag | inl _ => 0%N end.

Definition wireErr {value} (r : error + (N * value)) : option error :=
  match r with inl err => Some err | inr _ => None end.

Definition wirePair {value} (r : error + (N * value)) : option (N * value) :=
  match r with inl _ => None | inr p => Some p end.

(** [rawArgs[tag] = val] for each pair, first to last. *)
Definition fillMap {value} (m : gmap N value) (pairs : list (N * value)) : gmap N value :=
  foldl (fun m p => <[p.1 := p.2]> m) m pairs.

(** The unsigned value of eight bytes, least significant first. *)
Definition le64 (b0 b1 b2 b3 b4 b5 b6 b7 : byte) : N :=
  (Byte.to_N b0 + 2^8 * Byte.to_N b1 + 2^16 * Byte.to_N b2 + 2^24 * Byte.to_N b3 +
   2^32 * Byte.to_N b4 + 2^40 * Byte.to_N b5 + 2^48 * Byte.to_N b6 +
   2^56 * Byte.to_N b7)%N.

(** The consecutive little-endian 64-bit words of a buffer. *)
Fixpoint wordsOf (bs : list byte) : list N :=
  match bs with
  | b0 :: b1 :: b2 :: b3 :: b4 :: b5 :: b6 :: b7 :: rest =>
      le64 b0 b1 b2 b3 b4 b5 b6 b7 :: wordsOf rest
  | _ => []
  end.

(** The words before the first zero word. *)
Fixpoint untilZero (ws : list N) : list N :=
  match ws with
  | [] => []
  | w :: ws' => if (w =? 0)%N then [] else w :: untilZero ws'
  end.

(** Addresses as [0x<HEX>], joined by commas. *)
Definition renderTrace (addrs : list N) : string :=
  String.concat "," (map (fun a => "0x" +:+ fmtHex a) addrs).

(** The third testable property of the decoder, as the design document words
    it: a header that decodes, a [k]-th argument that does not, an error for
    it and a tag sequence shorter than the declared count. *)
Definition shorterTagSequence {value meta Event}
    (t : Tracee value meta Event) (dataRaw : list byte) : Prop :=
  forall ctx dataBuff k err,
    readContext t dataRaw = inr (ctx, dataBuff) ->
    wireArgs t (N.to_nat (Argnum ctx)) dataBuff !! k = Some (inl err) ->
    exists errs rawEvent,
      decodeRawEvent t dataRaw = Returned (errs, Some rawEvent) /\
      err ∈ errs /\
      length (ArgsTags rawEvent) < N.to_nat (Argnum ctx).

(** The value of a digit of [udigits], and of a string of them read as a
    number in base 16. *)
Definition hexDigitValue (c : ascii) : N :=
  match String.index 0 (String c "") udigits with
  | Some k => N.of_nat k
  | None => 0
  end.

Fixpoint hexValueFrom (acc : N) (s : string) : N :=
  match s with
  | "" => acc
  | String c s' => hexValueFrom (16 * acc + hexDigitValue c) s'
  end.

Definition hexValue (s : string) : N := hexValueFrom 0 s.

(** What the loop of getStackTrace appends for a list of addresses: each
    one followed by a comma. *)
Definition commaEach (addrs : list N) : string :=
  foldr (fun a s => "0x" +:+ fmtHex a +:+ "," +:+ s) "" addrs.

Section Reference.
Context {value meta Event : Type} (t : Tracee value meta Event).



(** Where the items of the four channels come from, given the raw buffers
    of the source in order. *)
Definition fromSource (source : list (list byte)) (x : nat * list byte) : Prop :=
  source !! x.1 = Some x.2.

Definition decodedFrom (source : list (list byte))
    (x : nat * RawEvent value meta) : Prop :=
  exists dataRaw errs,
    source !! x.1 = Some dataRaw /\
    decodeRawEvent t dataRaw = Returned (errs, Some x.2).

Definition processedFrom (source : list (list byte))
    (x : nat * RawEvent value meta) : Prop :=
  exists dataRaw errs rawEvent,
    source !! x.1 = Some dataRaw /\
    decodeRawEvent t dataRaw = Returned (errs, Some rawEvent) /\
    procOuts (processRawEvent t rawEvent) = [x.2].

Definition finalFrom (source : list (list byte)) (x : nat * Event) : Prop :=
  exists dataRaw, source !! x.1 = Some dataRaw /\ endToEnd t dataRaw = Some x.2.

Definition wellSourced (source : list (list byte))
    (p : pipeline value meta Event) : Prop :=
  Forall (fromSource source) (eventsChannel p) /\
  Forall (decodedFrom source) (rawEventChan p) /\
  Forall (processedFrom source) (processedEventChan p) /\
  Forall (finalFrom source) (printEventChan p) /\
  Forall (finalFrom source) (printed p).


(** The printed events of a source run to its end with [done] open: the
    buffers that survive the three stages, numbered, in source order. *)
Definition survivors (items : list (nat * list byte)) : list (nat * Event) :=
  omap (fun x => pair x.1 <$> endToEnd t x.2) items.

End Reference.

(** ** A sample instance

    A small wire format and small tables on which the model runs: a header
    of six bytes (event identifier, argument count, four bytes of stack
    identifier), then arguments of two bytes (tag, value); the tag [0xff]
    marks an argument that does not decode. *)
Module Sample.

Record Event := MkEvent {
  ev_id : Z;
  ev_names : list string;
  ev_args : list (option N);
  ev_stack : string
}.

Definition readContext (buff : list byte)
  : error + (context unit * list byte) :=
  match buff with
  | id :: n :: s0 :: s1 :: s2 :: s3 :: rest =>
      inr (MkContext (Z.of_N (Byte.to_N id)) (Byte.to_N n) (s0, s1, s2, s3) tt, rest)
  | _ => inl "unexpected EOF"
  end.

Definition readArgFromBuff (buff : list byte) : (error + (N * N)) * list byte :=
  match buff with
  | [] => (inl "EOF", [])
  | [_] => (inl "unexpected EOF", [])
  | tag :: v :: rest =>
      if Byte.eqb tag xff then (inl "unknown argument type", rest)
      else (inr (Byte.to_N tag, Byte.to_N v), rest)
  end.

(** Two name tables, for even and for odd event identifiers. *)
Definition DecParamName (sel : Z) (tag : N) : option string :=
  if (sel =? 0)%Z then
    (if (tag =? 1)%N then Some "fd" else if (tag =? 2)%N then Some "buf" else None)
  else if (sel =? 1)%Z then
    (if (tag =? 1)%N then Some "pathname" else if (tag =? 2)%N then Some "flags" else None)
  else None.

(** The stack words [0x10, 0x20, 0x00, 0x30] as the table stores them. *)
Definition stackWords : list byte :=
  PutUint64 0x10 ++ PutUint64 0x20 ++ PutUint64 0x00 ++ PutUint64 0x30.

(** A table with one stack, under the identifier 00 00 00 01. *)
Definition stackTable : BPFMap :=
  MkBPFMap (fun key size =>
    if decide (map Byte.to_N key = [0; 0; 0; 1]%N) then inr (sliceOf stackWords)
    else inl "key does not exist").

Definition withTable : BPFModule := MkBPFModule (fun _ => inr stackTable).
Definition withoutTable : BPFModule := MkBPFModule (fun _ => inl "map not found").

(** Events with identifier 9 are not processed; the process hook fails on
    identifier 8; events with identifier 11 are not printed. *)
Definition tracee (p : platform) (m : BPFModule) : Tracee N unit Event :=
  MkTracee readContext readArgFromBuff
    (fun ev => negb (EventID (Ctx ev) =? 9)%Z)
    (fun ctx args =>
       (if (EventID ctx =? 8)%Z then Some "process hook failed" else None, ctx, args))
    (fun ev => negb (EventID (Ctx ev) =? 11)%Z)
    (fun ctx args => (None, ctx, args))
    DecParamName p m
    (fun ctx names args st => inr (MkEvent (EventID ctx) names args st)).

Definition t64 : Tracee N unit Event := tracee Bits64 withTable.
Definition t32 : Tracee N unit Event := tracee Bits32 withTable.

(** { eventID=7, argCount=2, stackID=miss }, arguments (1, 0x2a), (2, 0x2b) *)
Definition buf7 : list byte :=
  [x07; x02; x00; x00; x00; x00; x01; x2a; x02; x2b].

(** The same event with a first argument that does not decode. *)
Definition buf7bad : list byte :=
  [x07; x02; x00; x00; x00; x00; xff; x2a; x02; x2b].

(** An event of identifier 6 with the stack identifier 00 00 00 01 and one
    argument whose tag 5 has no name. *)
Definition buf6 : list byte :=
  [x06; x02; x00; x00; x00; x01; x05; x2a; x02; x2b].

(** The header of [buf7] and [buf7bad], and the argument bytes after it. *)
Definition ctx7 : context unit := MkContext 7 2 (x00, x00, x00, x00) tt.
Definition args7 : list byte := [x01; x2a; x02; x2b].
Definition args7bad : list byte := [xff; x2a; x02; x2b].


(** Raw Events with the identifiers the sample policy singles out. *)
Definition evWithID (id : Z) : RawEvent N unit :=
  MkRawEvent (MkContext id 0 (x00, x00, x00, x00) tt) ∅ [].

End Sample.

(** ** Reference definitions for the further properties *)

(** Reading a rendered trace back: [strings.Split(s, ",")], then each piece
    without its [0x] read in base 16. *)
Fixpoint splitCommas (s : string) : list string :=
  match s with
  | "" => [""]
  | String c s' =>
      if Ascii.eqb c ","
      then "" :: splitCommas s'
      else match splitCommas s' with
           | piece :: pieces => String c piece :: pieces
           | [] => [String c ""]
           end
  end.

Definition parseAddr (s : string) : option N :=
  match s with
  | String "0" (String "x" digits) => Some (hexValue digits)
  | _ => None
  end.

Definition parseTrace (s : string) : list (option N) :=
  if String.eqb s "" then [] else map parseAddr (splitCommas s).

Fixpoint hasComma (s : string) : bool :=
  match s with
  | "" => false
  | String c s' => Ascii.eqb c "," || hasComma s'
  end.

Section PipelineReference.
Context {value meta Event : Type} (t : Tracee value meta Event).

(** What an item in a channel still becomes on its way to the printer, if
    anything: an event waiting for the print preparer, and a Raw Event
    waiting for the filter stage. *)
Definition afterPrepare (x : nat * RawEvent value meta) : option (nat * Event) :=
  match prepareEventForPrint t x.2 with
  | Returned (_, Some evt) => Some (x.1, evt)
  | _ => None
  end.

Definition afterProcess (x : nat * RawEvent value meta) : option (nat * Event) :=
  match procOuts (processRawEvent t x.2) with
  | processed :: _ => afterPrepare (x.1, processed)
  | [] => None
  end.

(** Everything the pipeline has still to print when it is left to run with
    [done] open, in the order it will print it. *)
Definition stillToPrint (p : pipeline value meta Event) : list (nat * Event) :=
  printEventChan p ++ omap afterPrepare (processedEventChan p) ++
  omap afterProcess (rawEventChan p) ++ survivors t (eventsChannel p).

End PipelineReference.

(** ** MergeErrors and WaitForPipeline (lines 200-238)

    The goroutines of the fan-in: one [output] goroutine for each channel of
    [cs], the goroutine that waits for the wait group and closes [out], and
    the [range] loop of WaitForPipeline that hands each error to
    [t.handleError].  A channel of [cs] is the list of the errors it still
    delivers before it is closed.  Every error carries the position of its
    channel in [cs], which the code does not have. *)
Record merger := MkMerger {
  (** the channels of [cs] *)
  mg_cs : list (list error);
  (** the [output] goroutines that have not called [wg.Done] *)
  mg_copying : list bool;
  (** the buffer of [out], of capacity [len(cs)], oldest first *)
  mg_out : list (nat * error);
  (** [close(out)] has run *)
  mg_closed : bool;
  (** the arguments of [t.handleError], in call order *)
  mg_handled : list (nat * error);
  (** WaitForPipeline has returned nil *)
  mg_returned : bool;
  (** a send on the closed [out] has panicked *)
  mg_panicked : bool
}.

(** [MergeErrors(cs...)] just after its goroutines are started. *)
Definition startMerge (cs : list (list error)) : merger :=
  MkMerger cs (replicate (length cs) true) [] false [] false false.

Inductive mstep : merger -> merger -> Prop :=
(** [out <- n]: room in the buffer of an open [out] *)
| mstep_copy m i err rest :
    mg_panicked m = false ->
    mg_copying m !! i = Some true ->
    mg_cs m !! i = Some (err :: rest) ->
    mg_closed m = false ->
    length (mg_out m) < length (mg_cs m) ->
    mstep m (MkMerger (<[i := rest]> (mg_cs m)) (mg_copying m)
                      (mg_out m ++ [(i, err)]) (mg_closed m)
                      (mg_handled m) (mg_returned m) (mg_panicked m))
(** [out <- n] on a closed [out] *)
| mstep_copy_closed m i err rest :
    mg_panicked m = false ->
    mg_copying m !! i = Some true ->
    mg_cs m !! i = Some (err :: rest) ->
    mg_closed m = true ->
    mstep m (MkMerger (mg_cs m) (mg_copying m) (mg_out m) (mg_closed m)
                      (mg_handled m) (mg_returned m) true)
(** the [range] over a closed and drained channel ends: [wg.Done()] *)
| mstep_done m i :
    mg_panicked m = false ->
    mg_copying m !! i = Some true ->
    mg_cs m !! i = Some [] ->
    mstep m (MkMerger (mg_cs m) (<[i := false]> (mg_copying m)) (mg_out m)
                      (mg_closed m) (mg_handled m) (mg_returned m) (mg_panicked m))
(** [wg.Wait()] returns, [close(out)] *)
| mstep_close m :
    mg_panicked m = false ->
    Forall (fun b => b = false) (mg_copying m) ->
    mg_closed m = false ->
    mstep m (MkMerger (mg_cs m) (mg_copying m) (mg_out m) true
                      (mg_handled m) (mg_returned m) (mg_panicked m))
(** [for err := range errc { t.handleError(err) }] *)
| mstep_handle m i err rest :
    mg_panicked m = false ->
    mg_returned m = false ->
    mg_out m = (i, err) :: rest ->
    mstep m (MkMerger (mg_cs m) (mg_copying m) rest (mg_closed m)
                      (mg_handled m ++ [(i, err)]) (mg_returned m) (mg_panicked m))
(** the [range] over the closed and drained [out] ends: [return nil] *)
| mstep_return m :
    mg_panicked m = false ->
    mg_returned m = false ->
    mg_out m = [] ->
    mg_closed m = true ->
    mstep m (MkMerger (mg_cs m) (mg_copying m) (mg_out m) (mg_closed m)
                      (mg_handled m) true (mg_panicked m)).

(** The errors of channel [i] among tagged errors, in their order. *)
Definition fromChannel (i : nat) (l : list (nat * error)) : list error :=
  (List.filter (fun x => Nat.eqb x.1 i) l).*2.

(** What is left to do: two for an error still in its channel (copy it,
    handle it), one for an error in the buffer, one for each [wg.Done], one
    for the close and one for the return. *)
Definition mergeWork (m : merger) : nat :=
  2 * length (concat (mg_cs m)) + length (mg_out m) +
  length (List.filter id (mg_copying m)) +
  (if mg_closed m then 0 else 1) + (if mg_returned m then 0 else 1).

(** What holds of every state the fan-in reaches from [startMerge cs]. *)
Definition mergeInv (cs : list (list error)) (m : merger) : Prop :=
  mg_panicked m = false /\
  length (mg_cs m) = length cs /\
  length (mg_copying m) = length cs /\
  length (mg_out m) <= length cs /\
  (forall i errs, cs !! i = Some errs ->
     exists rest, mg_cs m !! i = Some rest /\
       fromChannel i (mg_handled m ++ mg_out m) ++ rest = errs) /\
  (forall i, mg_copying m !! i = Some false -> mg_cs m !! i = Some []) /\
  (mg_closed m = true -> Forall (fun b => b = false) (mg_copying m)) /\
  (mg_returned m = true -> mg_closed m = true /\ mg_out m = []) /\
  (forall x, x ∈ mg_handled m ++ mg_out m -> x.1 < length cs) /\
  length (mg_handled m) + length (mg_out m) + length (concat (mg_cs m)) =
    length (concat cs).

(** ** More of the sample instance *)
Module SampleMore.

(** The event of [Sample.buf7] with a third argument that repeats tag 1. *)
Definition buf7dup : list byte :=
  [x07; x03; x00; x00; x00; x00; x01; x2a; x02; x2b; x01; x2c].

Definition ctx7dup : context unit := MkContext 7 3 (x00, x00, x00, x00) tt.
Definition args7dup : list byte := [x01; x2a; x02; x2b; x01; x2c].



(** A table whose only stack is one word and three more bytes. *)
Definition raggedTable : BPFMap :=
  MkBPFMap (fun key size => inr (sliceOf (PutUint64 0x10 ++ [x01; x02; x03]))).

Definition tRagged : Tracee N unit Sample.Event :=
  Sample.tracee Bits64 (MkBPFModule (fun _ => inr raggedTable)).

(** A table whose only stack starts with the zero word. *)
Definition zeroFirstTable : BPFMap :=
  MkBPFMap (fun key size => inr (sliceOf (PutUint64 0x00 ++ PutUint64 0x30))).

Definition tZeroFirst : Tracee N unit Sample.Event :=
  Sample.tracee Bits64 (MkBPFModule (fun _ => inr zeroFirstTable)).

(** Three error channels of a pipeline: two errors, none, one. *)
Definition errChannels : list (list error) :=
  [["bad header"; "bad argument"]; []; ["Invalid arg tag for event 6"]].

End SampleMore.

(** * Properties *)

(** ** Small facts about the Go helpers *)

Lemma storeAt_in_range {A} i (x : A) a :
  i < length a -> storeAt i x a = Returned (<[i := x]> a).
Proof. intros Hi. unfold storeAt. by rewrite decide_True. Qed.


Lemma insert_middle {A} (done : list A) x y rest :
  <[length done := y]> (done ++ x :: rest) = done ++ y :: rest.
Proof.
  rewrite insert_app_r_alt by lia. by rewrite Nat.sub_diag.
Qed.

(** ** The decoder *)

Section Decoder.
Context {value meta Event : Type} (t : Tracee value meta Event).

Lemma wireArgs_length n buff : length (wireArgs t n buff) = n.
Proof.
  revert buff. induction n as [|n IH]; intros buff; simpl; [done|].
  destruct (readArgFromBuff t buff) as [r buff']. simpl. by rewrite IH.
Qed.

(** The [j]-th wire argument is what readArgFromBuff reads at the cursor the
    [j] reads before it left. *)
Lemma wireArgs_lookup n buff j :
  j < n ->
  wireArgs t n buff !! j = Some (readArgFromBuff t (wireCursor t j buff)).1.
Proof.
  revert buff j. induction n as [|n IH]; intros buff j Hj; [lia|].
  simpl. destruct (readArgFromBuff t buff) as [r buff'] eqn:Hr.
  destruct j as [|j]; simpl.
  - by rewrite Hr.
  - rewrite Hr. simpl. apply IH. lia.
Qed.

(** The argument loop, run to its end: it never panics, and its four
    variables are the fold of the wire arguments. *)
Lemma argLoopFrom_run n : forall done m errs buff,
  argLoopFrom t n (length done) (MkArgLoop m (done ++ replicate n 0%N) errs buff) =
  Returned (MkArgLoop (fillMap m (omap wirePair (wireArgs t n buff)))
                      (done ++ map slotTag (wireArgs t n buff))
                      (errs ++ omap wireErr (wireArgs t n buff))
                      (wireCursor t n buff)).
Proof.
  induction n as [|n IH]; intros done m errs buff; simpl.
  { by rewrite !app_nil_r. }
  unfold argIter at 1. simpl.
  destruct (readArgFromBuff t buff) as [[err|[tag val]] buff'] eqn:Hr; simpl.
  - specialize (IH (done ++ [0%N]) m (errs ++ [err]) buff').
    rewrite length_app, Nat.add_1_r in IH. rewrite <- !app_assoc in IH. simpl in IH.
    exact IH.
  - rewrite storeAt_in_range by (rewrite length_app; simpl; lia). simpl.
    rewrite insert_middle.
    specialize (IH (done ++ [tag]) (<[tag := val]> m) errs buff').
    rewrite length_app, Nat.add_1_r in IH. rewrite <- !app_assoc in IH. simpl in IH.
    exact IH.
Qed.

(** The loop body of the decoder on a buffer whose header decodes. *)
Lemma decodeRawEvent_run dataRaw ctx dataBuff :
  readContext t dataRaw = inr (ctx, dataBuff) ->
  let wire := wireArgs t (N.to_nat (Argnum ctx)) dataBuff in
  decodeRawEvent t dataRaw =
  Returned (omap wireErr wire,
            Some (MkRawEvent ctx (fillMap ∅ (omap wirePair wire)) (map slotTag wire))).
Proof.
  intros Hctx wire. unfold decodeRawEvent. rewrite Hctx.
  pose proof (argLoopFrom_run (N.to_nat (Argnum ctx)) [] ∅ [] dataBuff) as Hrun.
  simpl in Hrun. rewrite Hrun. reflexivity.
Qed.


End Decoder.

(** ** The argument map *)

Section FillMap.
Context {value : Type}.
Implicit Types (m : gmap N value) (pairs : list (N * value)).

Lemma fillMap_snoc m pairs p :
  fillMap m (pairs ++ [p]) = <[p.1 := p.2]> (fillMap m pairs).
Proof. unfold fillMap. by rewrite foldl_app. Qed.

Lemma fillMap_size_le m pairs : size (fillMap m pairs) <= size m + length pairs.
Proof.
  induction pairs as [|p pairs IH] using rev_ind; simpl; [lia|].
  rewrite fillMap_snoc, length_app. simpl.
  destruct (fillMap m pairs !! p.1) as [v|] eqn:Hlook.
  - rewrite map_size_insert_Some by eauto. lia.
  - rewrite map_size_insert_None by done. lia.
Qed.

Lemma fillMap_lookup_other m pairs tag :
  tag ∉ pairs.*1 -> fillMap m pairs !! tag = m !! tag.
Proof.
  induction pairs as [|p pairs IH] using rev_ind; intros Hnot; [done|].
  rewrite fillMap_snoc. rewrite fmap_app in Hnot. simpl in Hnot.
  apply not_elem_of_app in Hnot as [Hnot Hne].
  rewrite lookup_insert_ne; [by apply IH|].
  intros <-. apply Hne. by apply list_elem_of_singleton.
Qed.

(** With pairwise distinct tags every pair is an entry of its own. *)
Lemma fillMap_NoDup pairs :
  NoDup pairs.*1 ->
  size (fillMap ∅ pairs) = length pairs /\
  forall tag val, (tag, val) ∈ pairs -> fillMap ∅ pairs !! tag = Some val.
Proof.
  induction pairs as [|[tag0 val0] pairs IH] using rev_ind; intros Hnd.
  { split; [done|]. intros ?? Hin. by apply elem_of_nil in Hin. }
  rewrite fmap_app in Hnd. apply NoDup_app in Hnd as (Hnd & Hfresh & _).
  destruct (IH Hnd) as [Hsize Hlook].
  assert (tag0 ∉ pairs.*1) as Hnot.
  { intros Hin. apply (Hfresh tag0 Hin). simpl. by apply list_elem_of_singleton. }
  rewrite fillMap_snoc. simpl. split.
  - rewrite map_size_insert_None.
    + rewrite Hsize, length_app. simpl. lia.
    + by rewrite fillMap_lookup_other.
  - intros tag val Hin. apply elem_of_app in Hin as [Hin|Hin].
    + rewrite lookup_insert_ne; [by apply Hlook|].
      intros <-. apply Hnot. apply list_elem_of_fmap. by exists (tag0, val).
    + apply list_elem_of_singleton in Hin. inversion Hin; subst.
      by rewrite lookup_insert_eq.
Qed.

End FillMap.

Section DecoderClaims.
Context {value meta Event : Type} (t : Tracee value meta Event).

Lemma omap_wirePair_le (wire : list (error + (N * value))) :
  length (omap wirePair wire) <= length wire.
Proof.
  unfold omap. induction wire as [|[err|p] wire IH]; simpl; lia.
Qed.

Lemma omap_wirePair_length (wire : list (error + (N * value))) k err :
  wire !! k = Some (inl err) -> length (omap wirePair wire) < length wire.
Proof.
  revert k. induction wire as [|r wire IH]; intros k Hk; [done|].
  destruct k as [|k]; simpl in Hk.
  - inversion Hk; subst.
    pose proof (omap_wirePair_le wire). unfold omap in *. simpl. lia.
  - specialize (IH k Hk). unfold omap in *. destruct r; simpl; lia.
Qed.

Lemma omap_wireErr_elem (wire : list (error + (N * value))) k err :
  wire !! k = Some (inl err) -> err ∈ omap wireErr wire.
Proof.
  intros Hk. apply list_elem_of_omap. exists (inl err). split; [|done].
  apply list_elem_of_lookup. eauto.
Qed.

Lemma omap_inr (pairs : list (N * value)) :
  omap wirePair (map inr pairs) = pairs /\
  omap wireErr (map (@inr error _) pairs) = [] /\
  map slotTag (map (@inr error _) pairs) = pairs.*1.
Proof.
  unfold omap.
  induction pairs as [|[tag val] pairs (IH1 & IH2 & IH3)]; [done|].
  simpl. by rewrite IH1, IH2, IH3.
Qed.

(** C1 (as the code has it).  A buffer whose header decodes and whose
    [k]-th argument does not: the decoder sends the error of that argument
    and still sends a Raw Event.  Its tag sequence keeps all [N] declared
    slots, the slot [k] holding the zero tag; the map has fewer than [N]
    entries; and every slot, those after [k] too, holds what readArgFromBuff
    read at the cursor the reads before it left. *)
Theorem decode_corrupt_argument_keeps_slot dataRaw ctx dataBuff k err :
  readContext t dataRaw = inr (ctx, dataBuff) ->
  wireArgs t (N.to_nat (Argnum ctx)) dataBuff !! k = Some (inl err) ->
  exists errs rawEvent,
    decodeRawEvent t dataRaw = Returned (errs, Some rawEvent) /\
    err ∈ errs /\
    length (ArgsTags rawEvent) = N.to_nat (Argnum ctx) /\
    ArgsTags rawEvent !! k = Some 0%N /\
    size (RawArgs rawEvent) < N.to_nat (Argnum ctx) /\
    forall j, j < N.to_nat (Argnum ctx) ->
      ArgsTags rawEvent !! j =
      Some (slotTag (readArgFromBuff t (wireCursor t j dataBuff)).1).
Proof.
  intros Hctx Hk. eexists _, _. split; [by apply decodeRawEvent_run|].
  simpl. set (wire := wireArgs t (N.to_nat (Argnum ctx)) dataBuff) in *.
  assert (length wire = N.to_nat (Argnum ctx)) as Hlen by apply wireArgs_length.
  repeat split.
  - by eapply omap_wireErr_elem.
  - by rewrite length_map.
  - by rewrite list_lookup_fmap, Hk.
  - pose proof (fillMap_size_le (∅ : gmap N value) (omap wirePair wire)) as Hsz.
    rewrite map_size_empty in Hsz.
    pose proof (omap_wirePair_length wire k err Hk). lia.
  - intros j Hj. rewrite list_lookup_fmap. unfold wire.
    by rewrite wireArgs_lookup.
Qed.

(** C2.  A buffer whose header declares [N] arguments that all decode, with
    pairwise distinct tags: the decoder sends no error and one Raw Event,
    whose map has exactly [N] entries, one per decoded pair, and whose tag
    sequence is the [N] tags in wire order. *)
Theorem decode_valid_buffer dataRaw ctx dataBuff (pairs : list (N * value)) :
  readContext t dataRaw = inr (ctx, dataBuff) ->
  wireArgs t (N.to_nat (Argnum ctx)) dataBuff = map inr pairs ->
  NoDup pairs.*1 ->
  exists rawEvent,
    decodeRawEvent t dataRaw = Returned ([], Some rawEvent) /\
    Ctx rawEvent = ctx /\
    size (RawArgs rawEvent) = N.to_nat (Argnum ctx) /\
    (forall tag val, (tag, val) ∈ pairs -> RawArgs rawEvent !! tag = Some val) /\
    length (ArgsTags rawEvent) = N.to_nat (Argnum ctx) /\
    ArgsTags rawEvent = pairs.*1.
Proof.
  intros Hctx Hwire Hnd.
  pose proof (wireArgs_length t (N.to_nat (Argnum ctx)) dataBuff) as Hlen.
  rewrite Hwire, length_map in Hlen.
  destruct (omap_inr pairs) as (Hp & He & Ht).
  destruct (fillMap_NoDup pairs Hnd) as [Hsize Hlook].
  eexists. split.
  { rewrite (decodeRawEvent_run t _ _ _ Hctx). simpl. rewrite Hwire, He, Hp, Ht.
    reflexivity. }
  simpl. repeat split; try done.
  - congruence.
  - rewrite length_fmap. congruence.
Qed.

(** Whatever the reading primitives are, a Raw Event sent for a buffer with
    an argument that does not decode never has the shorter tag sequence:
    [shorterTagSequence] holds of a buffer only when no argument of it fails. *)
Lemma shorterTagSequence_only_vacuously dataRaw :
  shorterTagSequence t dataRaw ->
  forall ctx dataBuff k err,
    readContext t dataRaw = inr (ctx, dataBuff) ->
    wireArgs t (N.to_nat (Argnum ctx)) dataBuff !! k = Some (inl err) -> False.
Proof.
  intros Hclaim ctx dataBuff k err Hctx Hk.
  destruct (Hclaim ctx dataBuff k err Hctx Hk) as (errs & rawEvent & Hdec & _ & Hlen).
  rewrite (decodeRawEvent_run t _ _ _ Hctx) in Hdec. injection Hdec as _ <-.
  simpl in Hlen. rewrite length_map, wireArgs_length in Hlen. lia.
Qed.

End DecoderClaims.
(** ** The stack-trace resolver *)

Lemma lor_shiftl_low a b k :
  (a < 2 ^ k)%N -> N.lor a (N.shiftl b k) = (a + 2 ^ k * b)%N.
Proof.
  intros Ha. rewrite N.shiftl_mul_pow2, (N.mul_comm b).
  rewrite <- N.lxor_lor, <- N.add_nocarry_lxor; try done.
  all: apply N.bits_inj; intros n; rewrite N.land_spec, N.bits_0.
  all: destruct (N.lt_ge_cases n k) as [Hn|Hn].
  all: try (rewrite (N.mul_comm _ b), N.mul_pow2_bits_low by done; apply andb_false_r).
  all: destruct (N.eq_dec a 0%N) as [->|Hne]; [by rewrite N.bits_0|].
  all: rewrite (N.bits_above_log2 a n); [done|].
  all: apply N.log2_lt_pow2 in Ha; lia.
Qed.

Lemma byte_lor_shift b x k :
  N.lor (N.shiftl (Byte.to_N b) k) (N.shiftl x (8 + k)) =
  N.shiftl (Byte.to_N b + 256 * x) k.
Proof.
  rewrite <- N.shiftl_shiftl, <- N.shiftl_lor. f_equal.
  apply (lor_shiftl_low _ _ 8). pose proof (Byte.to_N_bounded b). simpl. lia.
Qed.

(** The shifts and ors of Uint64 add up to the little-endian value. *)
Lemma Uint64_le64 b0 b1 b2 b3 b4 b5 b6 b7 rest :
  Uint64 (b0 :: b1 :: b2 :: b3 :: b4 :: b5 :: b6 :: b7 :: rest) =
  Returned (le64 b0 b1 b2 b3 b4 b5 b6 b7).
Proof.
  unfold Uint64, le64. f_equal.
  change 56%N with (8 + 48)%N. rewrite byte_lor_shift.
  change 48%N with (8 + 40)%N. rewrite byte_lor_shift.
  change 40%N with (8 + 32)%N. rewrite byte_lor_shift.
  change 32%N with (8 + 24)%N. rewrite byte_lor_shift.
  change 24%N with (8 + 16)%N. rewrite byte_lor_shift.
  change 16%N with (8 + 8)%N at 1. rewrite byte_lor_shift.
  rewrite (lor_shiftl_low _ _ 8) by (pose proof (Byte.to_N_bounded b0); simpl; lia).
  change (2 ^ 8)%N with 256%N. lia.
Qed.

Lemma Uint64_short b : length b < 8 -> Uint64 b = Panicked.
Proof.
  intros Hb. do 8 (destruct b as [|? b]; [reflexivity|]). simpl in Hb. lia.
Qed.

(** Strings that end in a comma. *)
Lemma append_cons c (s1 s2 : string) : String c s1 +:+ s2 = String c (s1 +:+ s2).
Proof. reflexivity. Qed.

Lemma append_nil (s : string) : "" +:+ s = s.
Proof. reflexivity. Qed.

Lemma append_empty_r (s : string) : s +:+ "" = s.
Proof. induction s as [|c s IH]; [done|]. by rewrite append_cons, IH. Qed.

Lemma append_assoc (s1 s2 s3 : string) : (s1 +:+ s2) +:+ s3 = s1 +:+ (s2 +:+ s3).
Proof.
  induction s1 as [|c s1 IH]; [done|]. by rewrite !append_cons, IH.
Qed.

Lemma length_append_comma (s : string) :
  String.length (s +:+ ",") = S (String.length s).
Proof.
  induction s as [|c s IH]; [done|]. rewrite append_cons. simpl. by rewrite IH.
Qed.

Lemma substring_last_comma (s : string) :
  String.substring (String.length s) 1 (s +:+ ",") = ",".
Proof. induction s as [|c s IH]; [done|]. rewrite append_cons. exact IH. Qed.

Lemma substring_but_comma (s : string) :
  String.substring 0 (String.length s) (s +:+ ",") = s.
Proof.
  induction s as [|c s IH]; [done|]. rewrite append_cons. simpl. by rewrite IH.
Qed.

Lemma TrimSuffix_comma (s : string) : TrimSuffix (s +:+ ",") "," = s.
Proof.
  unfold TrimSuffix, HasSuffix. rewrite length_append_comma. simpl.
  rewrite Nat.sub_0_r, substring_last_comma. simpl.
  apply substring_but_comma.
Qed.

(** The digits of [fmtHex]. *)
Lemma hexDigit_value d : (d < 16)%N -> hexDigitValue (hexDigit d) = d.
Proof.
  intros Hd.
  destruct d as [|p]; [reflexivity|].
  do 4 (destruct p as [p|p|]; try reflexivity); exfalso; lia.
Qed.

Lemma fmtHexFrom_acc fuel : forall u acc,
  fmtHexFrom fuel u acc = fmtHexFrom fuel u "" +:+ acc.
Proof.
  induction fuel as [|fuel IH]; intros u acc; simpl; [reflexivity|].
  destruct (16 <=? u)%N; [|reflexivity].
  rewrite (IH _ (String _ acc)), (IH _ (String _ "")).
  by rewrite append_assoc.
Qed.

Lemma hexValueFrom_app s1 : forall a s2,
  hexValueFrom a (s1 +:+ s2) = hexValueFrom (hexValueFrom a s1) s2.
Proof.
  induction s1 as [|c s1 IH]; intros a s2; [reflexivity|].
  rewrite append_cons. simpl. apply IH.
Qed.

Lemma size_shiftr_4 u :
  (16 <= u)%N -> N.to_nat (N.size (N.shiftr u 4)) < N.to_nat (N.size u).
Proof.
  intros Hu.
  assert (N.shiftr u 4 <> 0%N) as Hne.
  { rewrite N.shiftr_div_pow2. change (2 ^ 4)%N with 16%N.
    intros Hz. apply N.div_small_iff in Hz; lia. }
  rewrite !N.size_log2 by lia. rewrite N.log2_shiftr.
  assert (4 <= N.log2 u)%N; [|lia].
  change 4%N with (N.log2 16). by apply N.log2_le_mono.
Qed.

(** [fmtHex] has fuel for every digit: read back in base 16 its digits are
    the number. *)
Lemma fmtHexFrom_value fuel : forall u,
  N.to_nat (N.size u) <= fuel -> hexValue (fmtHexFrom fuel u "") = u.
Proof.
  unfold hexValue.
  induction fuel as [|fuel IH]; intros u Hfuel; cbn [fmtHexFrom].
  { assert (u = 0%N) as -> by (destruct u; simpl in *; lia). reflexivity. }
  destruct (16 <=? u)%N eqn:Hu.
  - apply N.leb_le in Hu. pose proof (size_shiftr_4 u Hu).
    rewrite fmtHexFrom_acc, hexValueFrom_app, IH by lia. cbn [hexValueFrom].
    rewrite hexDigit_value.
    + rewrite N.shiftr_div_pow2. change 15%N with (N.ones 4).
      rewrite N.land_ones. change (2 ^ 4)%N with 16%N.
      pose proof (N.div_mod u 16). lia.
    + change 15%N with (N.ones 4). rewrite N.land_ones.
      apply N.mod_lt. done.
  - apply N.leb_gt in Hu. cbn [hexValueFrom]. rewrite hexDigit_value by done. lia.
Qed.

Lemma fmtHex_value u : hexValue (fmtHex u) = u.
Proof. by apply fmtHexFrom_value. Qed.

Example fmtHex_upper_case : fmtHex 0x7ffe5dcab910 = "7FFE5DCAB910".
Proof. reflexivity. Qed.

Example fmtHex_zero : fmtHex 0 = "0".
Proof. reflexivity. Qed.

Lemma commaEach_render addrs :
  addrs <> [] -> commaEach addrs = renderTrace addrs +:+ ",".
Proof.
  induction addrs as [|a addrs IH]; intros Hne; [done|].
  destruct addrs as [|a' addrs].
  - unfold renderTrace. simpl. by rewrite !append_assoc.
  - change (commaEach (a :: a' :: addrs))
      with ("0x" +:+ fmtHex a +:+ "," +:+ commaEach (a' :: addrs)).
    rewrite IH by done. unfold renderTrace. simpl. by rewrite !append_assoc.
Qed.

Lemma TrimSuffix_commaEach addrs :
  TrimSuffix (commaEach addrs) "," = renderTrace addrs.
Proof.
  destruct addrs as [|a addrs]; [reflexivity|].
  rewrite commaEach_render by done. apply TrimSuffix_comma.
Qed.

Section StackTrace.
Context {value meta Event : Type} (t : Tracee value meta Event).
Local Arguments Uint64 : simpl never.

Lemma stackLoop_step s i acc :
  stackLoop t s i acc =
  if decide (i < slen s) then
    match obind (subslice s i (i + stackFrameSize t)) Uint64 with
    | Panicked => Panicked
    | Returned stackAddr =>
        if N.eqb stackAddr 0 then Returned acc
        else stackLoop t s (i + stackFrameSize t)
                       (acc +:+ "0x" +:+ fmtHex stackAddr +:+ ",")
    end
  else Returned acc.
Proof.
  rewrite stackLoop_equation_1.
  destruct (decide (i < slen s)); simpl; [|reflexivity].
  destruct (obind _ _); simpl; [|reflexivity].
  destruct (N.eqb _ 0); reflexivity.
Qed.



Lemma stackFrameSize_64 : arch t = Bits64 -> stackFrameSize t = 8.
Proof. intros H. unfold stackFrameSize. by rewrite H. Qed.

(** The loop on a 64-bit build, from a cursor at a word boundary with [n]
    whole words left before the end of the slice. *)
Lemma stackLoop_words n : forall pre rest tail acc,
  arch t = Bits64 ->
  length rest = 8 * n ->
  stackLoop t (MkSlice (pre ++ rest ++ tail) (length pre + length rest))
            (length pre) acc =
  Returned (acc +:+ commaEach (untilZero (wordsOf rest))).
Proof.
  induction n as [|n IH]; intros pre rest tail acc Harch Hlen;
    rewrite stackLoop_step; simpl.
  { destruct rest; [|done]. simpl. rewrite decide_False by lia.
    by rewrite append_empty_r. }
  rewrite decide_True by lia.
  rewrite (stackFrameSize_64 Harch).
  do 8 (destruct rest as [|? rest]; [simpl in Hlen; lia|]).
  unfold subslice, scap. simpl backing.
  rewrite decide_True by (rewrite !length_app; simpl; lia).
  replace (length pre + 8 - length pre) with 8 by lia.
  rewrite drop_app_length. simpl take. simpl obind.
  rewrite Uint64_le64. simpl wordsOf. simpl untilZero.
  destruct (le64 _ _ _ _ _ _ _ _ =? 0)%N eqn:Hz.
  { simpl. by rewrite append_empty_r. }
  specialize (IH (pre ++ [b; b0; b1; b2; b3; b4; b5; b6]) rest tail
                 (acc +:+ "0x" +:+ fmtHex (le64 b b0 b1 b2 b3 b4 b5 b6) +:+ ",") Harch).
  rewrite <- !app_assoc in IH. simpl in IH. rewrite length_app in IH. simpl in IH.
  simpl length. simpl app.
  replace (length pre + S (S (S (S (S (S (S (S (length rest)))))))))
    with (length pre + 8 + length rest) by lia.
  rewrite IH by (simpl in Hlen; lia).
  f_equal. simpl commaEach. by rewrite !append_assoc.
Qed.

(** getStackTrace on a 64-bit build, for a table entry of whole words. *)
Lemma getStackTrace_words StackID stackTracesMap stackBytes :
  arch t = Bits64 ->
  GetMap (bpfModule t) "stack_traces" = inr stackTracesMap ->
  GetValue stackTracesMap (slice4 StackID) (stackFrameSize t * maxStackDepth)
    = inr stackBytes ->
  slen stackBytes <= scap stackBytes ->
  (8 | slen stackBytes) ->
  getStackTrace t StackID =
  Returned (renderTrace (untilZero (wordsOf (take (slen stackBytes) (backing stackBytes)))),
            None).
Proof.
  intros Harch Hmap Hval Hcap [n Hn].
  unfold getStackTrace. rewrite Hmap, Hval.
  destruct stackBytes as [bs len]. unfold scap in Hcap. simpl in *.
  pose proof (stackLoop_words n [] (take len bs) (drop len bs) "" Harch) as Hloop.
  simpl in Hloop. rewrite take_drop, length_take, Nat.min_l in Hloop by done.
  rewrite Hloop by lia. simpl obind.
  by rewrite append_nil, TrimSuffix_commaEach.
Qed.




(** C6.  When the stack-trace table cannot be obtained, or has no entry for
    the identifier, getStackTrace returns the empty string and a nil error;
    and whenever getStackTrace returns, its error is nil. *)
Theorem stack_trace_lookup_failure StackID :
  (forall err, GetMap (bpfModule t) "stack_traces" = inl err ->
     getStackTrace t StackID = Returned ("", None)) /\
  (forall stackTracesMap err,
     GetMap (bpfModule t) "stack_traces" = inr stackTracesMap ->
     GetValue stackTracesMap (slice4 StackID) (stackFrameSize t * maxStackDepth)
       = inl err ->
     getStackTrace t StackID = Returned ("", None)) /\
  (forall r, getStackTrace t StackID = Returned r -> r.2 = None).
Proof.
  unfold getStackTrace. repeat split.
  - by intros err ->.
  - by intros m err -> ->.
  - intros r. destruct (GetMap _ _) as [err|m]; [by intros [= <-]|].
    destruct (GetValue _ _ _) as [err|stackBytes]; [by intros [= <-]|].
    destruct (stackLoop _ _ _ _) as [st|]; simpl; [by intros [= <-] | done].
Qed.

(** C9.  The loop steps by the word size of the build, [strconv.IntSize / 8],
    and decodes eight bytes from a window of that many.  On a build whose
    word size is below eight bytes every window is too short for Uint64, and
    for any non-empty buffer the table hands back getStackTrace panics
    instead of returning a string. *)
Theorem stack_trace_word_size StackID stackTracesMap stackBytes :
  stackFrameSize t < 8 ->
  GetMap (bpfModule t) "stack_traces" = inr stackTracesMap ->
  GetValue stackTracesMap (slice4 StackID) (stackFrameSize t * maxStackDepth)
    = inr stackBytes ->
  0 < slen stackBytes ->
  (forall i window,
     subslice stackBytes i (i + stackFrameSize t) = Returned window ->
     length window < 8 /\ Uint64 window = Panicked) /\
  getStackTrace t StackID = Panicked.
Proof.
  intros Hsize Hmap Hval Hlen.
  assert (forall i window,
     subslice stackBytes i (i + stackFrameSize t) = Returned window ->
     length window < 8 /\ Uint64 window = Panicked) as Hwin.
  { intros i window. unfold subslice. case_decide; [|done]. intros [= <-].
    assert (length (take (i + stackFrameSize t - i) (drop i (backing stackBytes))) < 8).
    { rewrite length_take. lia. }
    split; [done | by apply Uint64_short]. }
  split; [exact Hwin|].
  unfold getStackTrace. rewrite Hmap, Hval, stackLoop_step.
  rewrite decide_True by done.
  destruct (subslice stackBytes 0 (0 + stackFrameSize t)) as [window|] eqn:Hsub;
    [|done].
  simpl. by rewrite (proj2 (Hwin 0 window Hsub)).
Qed.

End StackTrace.

(** ** The print preparer *)

(** For identifiers that are not negative, Go's [id % 2] is the parity. *)
Lemma rem_2_parity (a b : Z) :
  (0 <= a)%Z -> (0 <= b)%Z ->
  Z.rem a 2 = Z.rem b 2 <-> Z.even a = Z.even b.
Proof.
  intros Ha Hb. rewrite !Z.rem_mod_nonneg by lia.
  rewrite (Zmod_even a), (Zmod_even b).
  destruct (Z.even a), (Z.even b); split; intros H; try done.
Qed.

Section Names.
Context {value meta Event : Type} (t : Tracee value meta Event).
Implicit Types (ctx : context meta) (rawArgs : gmap N value) (tags : list N).








End Names.

(** ** The filter and processor *)

Section Processor.
Context {value meta Event : Type} (t : Tracee value meta Event).

(** Over a whole inbound stream the hook is called once for each event the
    predicate lets through, in order, and for no other. *)
Lemma processStage_hook_calls (inbound : list (RawEvent value meta)) :
  List.filter isHookCall (processStage t inbound) =
  map (fun ev => CallProcessEvent (Ctx ev) (RawArgs ev))
      (List.filter (shouldProcessEvent t) inbound).
Proof.
  unfold processStage.
  induction inbound as [|ev inbound IH]; [done|].
  cbn [map concat]. rewrite List.filter_app, IH. clear IH.
  unfold processRawEvent. cbn [List.filter].
  destruct (shouldProcessEvent t ev); simpl; [|done].
  by destruct (processEvent t _ _) as [[[err|] ctx] rawArgs].
Qed.

(** C7.  For a Raw Event on the inbound channel: when the predicate says
    no, the hook is not called, no error is sent and nothing is forwarded;
    when it says yes, the hook is called exactly once, on this event's header
    and map; and when the hook returns an error, that error goes on the error
    channel and the event is not forwarded (without an error it is). *)
Theorem process_stage_policy (rawEvent : RawEvent value meta) :
  let trace := processRawEvent t rawEvent in
  (shouldProcessEvent t rawEvent = false ->
     List.filter isHookCall trace = [] /\
     procErrs trace = [] /\ procOuts trace = []) /\
  (shouldProcessEvent t rawEvent = true ->
     List.filter isHookCall trace =
       [CallProcessEvent (Ctx rawEvent) (RawArgs rawEvent)]) /\
  (forall err ctx rawArgs,
     shouldProcessEvent t rawEvent = true ->
     processEvent t (Ctx rawEvent) (RawArgs rawEvent) = (Some err, ctx, rawArgs) ->
     procErrs trace = [err] /\ procOuts trace = []) /\
  (forall ctx rawArgs,
     shouldProcessEvent t rawEvent = true ->
     processEvent t (Ctx rawEvent) (RawArgs rawEvent) = (None, ctx, rawArgs) ->
     procErrs trace = [] /\
     procOuts trace = [MkRawEvent ctx rawArgs (ArgsTags rawEvent)]).
Proof.
  intros trace. unfold trace, processRawEvent, procErrs, procOuts.
  split; [|split; [|split]].
  - by intros ->.
  - intros ->. simpl.
    by destruct (processEvent t _ _) as [[[err|] ctx] rawArgs].
  - by intros err ctx rawArgs -> ->.
  - by intros ctx rawArgs -> ->.
Qed.

End Processor.

(** ** The pipeline *)

Lemma StronglySorted_lt_sublist (l k : list nat) :
  l `sublist_of` k -> StronglySorted lt k -> StronglySorted lt l.
Proof.
  induction 1 as [|x l k Hsub IH|x l k Hsub IH]; intros Hk.
  - constructor.
  - apply StronglySorted_inv in Hk as [Hk Hx]. constructor; [by apply IH|].
    rewrite Forall_forall in *. intros y Hy. apply Hx.
    by eapply elem_of_sublist.
  - apply StronglySorted_inv in Hk as [Hk _]. by apply IH.
Qed.

Lemma StronglySorted_lt_seq a n : StronglySorted lt (seq a n).
Proof.
  revert a. induction n as [|n IH]; intros a; simpl; constructor; [apply IH|].
  apply Forall_forall. intros y Hy. apply elem_of_seq in Hy. lia.
Qed.

(** In a strictly increasing sequence of event numbers the smaller number
    comes first. *)
Lemma sorted_fst_split {E} (l : list (nat * E)) i j a b :
  StronglySorted lt l.*1 -> i < j -> (i, a) ∈ l -> (j, b) ∈ l ->
  exists l1 l2 l3, l = l1 ++ (i, a) :: l2 ++ (j, b) :: l3.
Proof.
  intros Hs Hij Ha Hb.
  apply list_elem_of_split in Ha as (l1 & l2 & ->).
  apply elem_of_app in Hb as [Hb|Hb].
  - exfalso. rewrite fmap_app in Hs. simpl in Hs.
    assert (j < i); [|lia].
    apply (StronglySorted_app_1_elem_of _ _ _ j i Hs).
    + apply list_elem_of_fmap. by exists (j, b).
    + simpl. left.
  - apply elem_of_cons in Hb as [Hb|Hb]; [inversion Hb; lia|].
    apply list_elem_of_split in Hb as (l2a & l3 & ->). by exists l1, l2a, l3.
Qed.

Section Pipeline.
Context {value meta Event : Type} (t : Tracee value meta Event).
Implicit Types (p : pipeline value meta Event).
Local Abbreviation start := (@startPipeline value meta Event).

Lemma procOuts_at_most_one rawEvent :
  procOuts (processRawEvent t rawEvent) = [] \/
  exists ev, procOuts (processRawEvent t rawEvent) = [ev].
Proof.
  unfold processRawEvent, procOuts.
  destruct (shouldProcessEvent t rawEvent); simpl; [|by left].
  destruct (processEvent t _ _) as [[[err|] ctx] rawArgs]; simpl; eauto.
Qed.

(** No step adds an event number or moves one past another. *)
Lemma step_inFlight p p' : step t p p' -> inFlight p' `sublist_of` inFlight p.
Proof.
  destruct 1; unfold inFlight;
    cbn [eventsChannel rawEventChan processedEventChan printEventChan printed];
    repeat match goal with H : _ = _ :: _ |- _ => rewrite H; clear H end;
    rewrite ?fmap_app, ?fmap_cons; cbn [fst]; rewrite <- ?app_assoc;
    repeat (apply sublist_app; [reflexivity|]).
  - reflexivity.
  - destruct out; simpl; [reflexivity | by apply sublist_cons].
  - by apply sublist_cons.
  - by apply sublist_cons.
  - destruct (procOuts_at_most_one rawEvent) as [->|[ev ->]]; simpl.
    + apply sublist_cons. reflexivity.
    + reflexivity.
  - by apply sublist_cons.
  - rewrite app_assoc. apply sublist_app; [|reflexivity].
    destruct out; simpl; [reflexivity | by apply sublist_cons].
  - apply sublist_cons. reflexivity.
  - apply sublist_cons. reflexivity.
  - reflexivity.
Qed.

Lemma inFlight_start source : inFlight (start source) = seq 0 (length source).
Proof.
  unfold inFlight. simpl. apply fst_zip. by rewrite length_seq.
Qed.

Lemma reachable_sorted source p :
  rtc (step t) (start source) p -> StronglySorted lt (inFlight p).
Proof.
  intros Hrun. apply (StronglySorted_lt_sublist _ (inFlight (start source))).
  - induction Hrun as [|p1 p2 p3 Hstep _ IH]; [reflexivity|].
    etrans; [exact IH|]. by apply step_inFlight.
  - rewrite inFlight_start. apply StronglySorted_lt_seq.
Qed.

Lemma wellSourced_start source : wellSourced t source (start source).
Proof.
  repeat split; try by constructor.
  simpl. apply Forall_forall. intros [k b] Hin.
  apply list_elem_of_lookup in Hin as [i Hi].
  apply lookup_zip_Some in Hi as [Hk Hb].
  apply lookup_seq in Hk as [-> _]. exact Hb.
Qed.

Lemma step_wellSourced source p p' :
  step t p p' -> wellSourced t source p -> wellSourced t source p'.
Proof.
  intros Hstep (Hsrc & Hraw & Hproc & Hprint & Hdone).
  destruct Hstep; unfold wellSourced;
    cbn [eventsChannel rawEventChan processedEventChan printEventChan printed];
    repeat match goal with
    | H : ?c = _ :: _, F : Forall _ ?c |- _ =>
        rewrite H in F; apply Forall_cons in F as [? ?]; clear H
    end;
    repeat split; try done.
  - apply Forall_app. split; [done|]. destruct out as [ev|]; simpl; [|constructor].
    repeat constructor. eexists _, _. split; [eassumption|eassumption].
  - apply Forall_app. split; [done|].
    destruct (procOuts_at_most_one rawEvent) as [Hout|[ev Hout]]; rewrite Hout; simpl;
      [constructor|].
    repeat constructor.
    match goal with H : decodedFrom _ _ _ |- _ => destruct H as (b & errs & ? & ?) end.
    by eexists _, _, _.
  - apply Forall_app. split; [done|]. destruct out as [evt|]; simpl; [|constructor].
    repeat constructor.
    match goal with H : processedFrom _ _ _ |- _ => destruct H as (b & errs' & ev & ? & Hd & Hp) end.
    exists b. split; [done|]. unfold endToEnd. simpl in *. rewrite Hd, Hp.
    match goal with H : prepareEventForPrint _ _ = _ |- _ => by rewrite H end.
  - apply Forall_app. split; [done|]. by repeat constructor.
Qed.

Lemma reachable_wellSourced source p :
  rtc (step t) (start source) p -> wellSourced t source p.
Proof.
  intros Hrun.
  refine (rtc_ind_r (wellSourced t source) (start source) _ _ p Hrun).
  - apply wellSourced_start.
  - intros p1 p2 _ Hstep IH. by eapply step_wellSourced.
Qed.

Lemma survivors_cons k dataRaw items :
  survivors t ((k, dataRaw) :: items) =
  from_option (fun evt => [(k, evt)]) [] (endToEnd t dataRaw) ++ survivors t items.
Proof.
  unfold survivors. cbn [omap list_omap]. simpl.
  by destruct (endToEnd t dataRaw).
Qed.




(** C10.  In every state the pipeline can reach from a source, under any
    interleaving of the four goroutines and with or without cancellation: if
    the buffer at position [i] of the source comes before the buffer at
    position [j] and the events of both have been printed, then each printed
    event is what its own buffer becomes through the three stages, and the
    event of [i] was printed before the event of [j]. *)
Theorem pipeline_preserves_order source p i j evtA evtB :
  rtc (step t) (start source) p ->
  i < j ->
  (i, evtA) ∈ printed p ->
  (j, evtB) ∈ printed p ->
  (exists a b,
     source !! i = Some a /\ source !! j = Some b /\
     endToEnd t a = Some evtA /\ endToEnd t b = Some evtB) /\
  exists l1 l2 l3, printed p = l1 ++ (i, evtA) :: l2 ++ (j, evtB) :: l3.
Proof.
  intros Hrun Hij HA HB. split.
  - destruct (reachable_wellSourced _ _ Hrun) as (_ & _ & _ & _ & Hdone).
    rewrite Forall_forall in Hdone.
    destruct (Hdone _ HA) as (a & Ha & Hea).
    destruct (Hdone _ HB) as (b & Hb & Heb).
    by exists a, b.
  - apply reachable_sorted in Hrun. unfold inFlight in Hrun.
    apply StronglySorted_app_1_l in Hrun.
    by eapply sorted_fst_split.
Qed.

End Pipeline.

(** ** The properties on the sample instance *)

(** C1, as the design document words it, fails on the buffer [buf7bad]: the
    first of its two arguments does not decode, and the tag sequence of the
    Raw Event still has two slots. *)
Lemma shorterTagSequence_fails :
  ~ shorterTagSequence Sample.t64 Sample.buf7bad.
Proof.
  intros Hclaim.
  destruct (Hclaim Sample.ctx7 Sample.args7bad 0 "unknown argument type"
              eq_refl eq_refl) as (errs & rawEvent & Hdec & _ & Hlen).
  vm_compute in Hdec. injection Hdec as _ <-. vm_compute in Hlen. lia.
Qed.

Lemma decode_corrupt_argument_keeps_slot_witness :
  readContext Sample.t64 Sample.buf7bad = inr (Sample.ctx7, Sample.args7bad) /\
  wireArgs Sample.t64 2 Sample.args7bad !! 0 = Some (inl "unknown argument type") /\
  exists errs rawEvent,
    decodeRawEvent Sample.t64 Sample.buf7bad = Returned (errs, Some rawEvent) /\
    "unknown argument type" ∈ errs /\
    length (ArgsTags rawEvent) = 2 /\
    ArgsTags rawEvent !! 0 = Some 0%N /\
    size (RawArgs rawEvent) < 2 /\
    ArgsTags rawEvent !! 1 = Some 2%N.
Proof.
  split; [reflexivity|]. split; [reflexivity|].
  destruct (decode_corrupt_argument_keeps_slot Sample.t64 Sample.buf7bad
              Sample.ctx7 Sample.args7bad 0 "unknown argument type"
              eq_refl eq_refl)
    as (errs & rawEvent & Hdec & Herr & Hlen & Hslot & Hsize & Hrest).
  exists errs, rawEvent. repeat split; try assumption.
  apply (Hrest 1). vm_compute. lia.
Defined.

Lemma decode_valid_buffer_witness :
  readContext Sample.t64 Sample.buf7 = inr (Sample.ctx7, Sample.args7) /\
  exists rawEvent,
    decodeRawEvent Sample.t64 Sample.buf7 = Returned ([], Some rawEvent) /\
    size (RawArgs rawEvent) = 2 /\
    RawArgs rawEvent !! 1%N = Some 42%N /\
    RawArgs rawEvent !! 2%N = Some 43%N /\
    ArgsTags rawEvent = [1%N; 2%N].
Proof.
  split; [reflexivity|].
  destruct (decode_valid_buffer Sample.t64 Sample.buf7 Sample.ctx7 Sample.args7
              [(1%N, 42%N); (2%N, 43%N)] eq_refl eq_refl)
    as (rawEvent & Hdec & _ & Hsize & Hlook & _ & Htags).
  { apply NoDup_cons. split; [|apply NoDup_singleton].
    rewrite list_elem_of_singleton. discriminate. }
  exists rawEvent. repeat split; try assumption.
  - apply Hlook. left.
  - apply Hlook. right. left.
Defined.




Lemma stack_trace_lookup_failure_witness :
  getStackTrace (Sample.tracee Bits64 Sample.withoutTable) (x00, x00, x00, x01)
    = Returned ("", None) /\
  getStackTrace Sample.t64 (x00, x00, x00, x00) = Returned ("", None).
Proof.
  split.
  - apply (proj1 (stack_trace_lookup_failure
                    (Sample.tracee Bits64 Sample.withoutTable)
                    (x00, x00, x00, x01)) "map not found").
    reflexivity.
  - apply (proj1 (proj2 (stack_trace_lookup_failure Sample.t64 (x00, x00, x00, x00)))
             Sample.stackTable "key does not exist"); reflexivity.
Defined.

Lemma stack_trace_word_size_witness :
  stackFrameSize Sample.t32 = 4 /\
  slen (sliceOf Sample.stackWords) = 32 /\
  getStackTrace Sample.t32 (x00, x00, x00, x01) = Panicked.
Proof.
  split; [reflexivity|]. split; [reflexivity|].
  apply (stack_trace_word_size Sample.t32 (x00, x00, x00, x01)
           Sample.stackTable (sliceOf Sample.stackWords)).
  - vm_compute. lia.
  - reflexivity.
  - reflexivity.
  - vm_compute. lia.
Defined.

Lemma process_stage_policy_witness :
  procOuts (processRawEvent Sample.t64 (Sample.evWithID 9)) = [] /\
  procErrs (processRawEvent Sample.t64 (Sample.evWithID 9)) = [] /\
  List.filter isHookCall (processRawEvent Sample.t64 (Sample.evWithID 9)) = [] /\
  procErrs (processRawEvent Sample.t64 (Sample.evWithID 8)) = ["process hook failed"] /\
  procOuts (processRawEvent Sample.t64 (Sample.evWithID 8)) = [] /\
  length (List.filter isHookCall (processRawEvent Sample.t64 (Sample.evWithID 7))) = 1.
Proof.
  destruct (process_stage_policy Sample.t64 (Sample.evWithID 9)) as (Hdrop & _).
  destruct (Hdrop eq_refl) as (Hcalls & Herrs & Houts).
  destruct (process_stage_policy Sample.t64 (Sample.evWithID 8)) as (_ & _ & Hfail & _).
  destruct (Hfail "process hook failed" _ _ eq_refl eq_refl) as (Herr8 & Hout8).
  destruct (process_stage_policy Sample.t64 (Sample.evWithID 7)) as (_ & Hpass & _).
  pose proof (Hpass eq_refl) as Hcall.
  split; [exact Houts|]. split; [exact Herrs|]. split; [exact Hcalls|].
  split; [exact Herr8|]. split; [exact Hout8|].
  by rewrite Hcall.
Defined.


(** Runs of the sample pipeline: one step of a named stage, then the
    channels of the new state brought to values. *)
Ltac channels :=
  repeat match goal with
  | |- context [procOuts ?tr] =>
      let v := eval vm_compute in (procOuts tr) in change (procOuts tr) with v
  | |- context [procErrs ?tr] =>
      let v := eval vm_compute in (procErrs tr) in change (procErrs tr) with v
  end;
  cbn [eventsChannel rawEventChan processedEventChan printEventChan printed
       eventCounter errors cancelled decoderGone processorGone preparerGone
       crashed app from_option map N.add Pos.add Pos.succ].

Ltac stage rule :=
  eapply rtc_l;
  [eapply rule; [reflexivity .. | try (vm_compute; reflexivity)] | channels].

Lemma pipeline_preserves_order_witness :
  exists p,
    rtc (step Sample.t64) (startPipeline [Sample.buf7; Sample.buf6]) p /\
    printed p =
      [(0, Sample.MkEvent 7 ["pathname"; "flags"] [Some 42%N; Some 43%N] "");
       (1, Sample.MkEvent 6 [""; "buf"] [Some 42%N; Some 43%N] "0x10,0x20")] /\
    exists l1 l2 l3,
      printed p =
      l1 ++ (0, Sample.MkEvent 7 ["pathname"; "flags"] [Some 42%N; Some 43%N] "")
         :: l2 ++
         (1, Sample.MkEvent 6 [""; "buf"] [Some 42%N; Some 43%N] "0x10,0x20") :: l3.
Proof.
  assert (rtc (step Sample.t64) (startPipeline [Sample.buf7; Sample.buf6])
    (MkPipeline [] [] [] []
      [(0, Sample.MkEvent 7 ["pathname"; "flags"] [Some 42%N; Some 43%N] "");
       (1, Sample.MkEvent 6 [""; "buf"] [Some 42%N; Some 43%N] "0x10,0x20")]
      2 ["Invalid arg tag for event 6"] false false false false false)) as Hrun.
  { unfold startPipeline. simpl zip.
    stage @step_decode. stage @step_decode.
    stage @step_process. stage @step_process.
    stage @step_prepare. stage @step_prepare.
    stage @step_print. stage @step_print.
    apply rtc_refl. }
  eexists. split; [exact Hrun|]. split; [reflexivity|].
  refine (proj2 (pipeline_preserves_order Sample.t64 [Sample.buf7; Sample.buf6]
                   _ 0 1 _ _ Hrun _ _ _)).
  - lia.
  - left.
  - right. left.
Defined.

(** * Further properties of the code *)

(** ** decodeRawEvent: totality, accounting and the argument map *)

Section DecoderMore.
Context {value meta Event : Type} (t : Tracee value meta Event).

Lemma wire_split (wire : list (error + (N * value))) :
  length (omap wireErr wire) + length (omap wirePair wire) = length wire.
Proof.
  unfold omap. induction wire as [|[err|p] wire IH]; simpl; lia.
Qed.

Lemma fillMap_list_to_map (pairs : list (N * value)) :
  fillMap ∅ pairs = list_to_map (reverse pairs).
Proof.
  induction pairs as [|p pairs IH] using rev_ind; [done|].
  rewrite fillMap_snoc, reverse_snoc, IH. by destruct p.
Qed.

Lemma fillMap_last_wins (pre post : list (N * value)) tag val :
  tag ∉ post.*1 -> fillMap ∅ (pre ++ (tag, val) :: post) !! tag = Some val.
Proof.
  intros Hnot.
  induction post as [|[tag' val'] post IH] using rev_ind.
  - change (pre ++ [(tag, val)]) with (pre ++ [(tag, val)]).
    rewrite fillMap_snoc. simpl. apply lookup_insert_eq.
  - rewrite fmap_app in Hnot. apply not_elem_of_app in Hnot as [Hnot Hne].
    rewrite app_comm_cons, app_assoc, fillMap_snoc. simpl.
    rewrite lookup_insert_ne; [by apply IH|].
    intros <-. apply Hne. simpl. by apply list_elem_of_singleton.
Qed.

Lemma fillMap_dom (pairs : list (N * value)) :
  dom (fillMap ∅ pairs) = list_to_set pairs.*1.
Proof.
  induction pairs as [|[tag val] pairs IH] using rev_ind.
  { unfold fillMap. simpl. by rewrite dom_empty_L. }
  rewrite fillMap_snoc, dom_insert_L, IH, fmap_app, list_to_set_app_L. simpl.
  rewrite (right_id_L ∅ (∪)). apply (comm_L (∪)).
Qed.

(** X1.  Whatever the two reading primitives return, the loop body of the
    decoder returns: no store into the tag array is out of range.  A header
    that does not decode costs exactly its own error and no event and no
    argument is read; a header that decodes always gives one event, carrying
    that header. *)
Theorem decoder_total dataRaw :
  exists errs out,
    decodeRawEvent t dataRaw = Returned (errs, out) /\
    (forall err, readContext t dataRaw = inl err -> errs = [err] /\ out = None) /\
    (forall ctx dataBuff, readContext t dataRaw = inr (ctx, dataBuff) ->
       exists rawEvent, out = Some rawEvent /\ Ctx rawEvent = ctx).
Proof.
  destruct (readContext t dataRaw) as [err|[ctx dataBuff]] eqn:Hctx.
  - exists [err], None. unfold decodeRawEvent. rewrite Hctx.
    split; [done|]. split; [by intros ? [= <-] | by intros ?? [=]].
  - eexists _, _. split; [by apply decodeRawEvent_run|].
    split; [by intros ? [=]|]. intros ?? [= <- <-]. by eexists.
Qed.

(** X2.  Every declared argument is accounted for once: the errors sent for
    an event are the errors of the arguments that did not decode, in wire
    order, and their number plus the number of decoded arguments is the
    declared count; the map never has more entries than decoded arguments. *)
Theorem decoder_accounts_for_every_argument dataRaw ctx dataBuff :
  readContext t dataRaw = inr (ctx, dataBuff) ->
  let wire := wireArgs t (N.to_nat (Argnum ctx)) dataBuff in
  exists errs rawEvent,
    decodeRawEvent t dataRaw = Returned (errs, Some rawEvent) /\
    errs = omap wireErr wire /\
    length errs + length (omap wirePair wire) = N.to_nat (Argnum ctx) /\
    size (RawArgs rawEvent) <= length (omap wirePair wire) /\
    (errs = [] -> ArgsTags rawEvent = (omap wirePair wire).*1).
Proof.
  intros Hctx wire. eexists _, _. split; [by apply decodeRawEvent_run|].
  fold wire. simpl. split; [done|]. split; [|split].
  - rewrite wire_split. apply wireArgs_length.
  - pose proof (fillMap_size_le (∅ : gmap N value) (omap wirePair wire)) as Hsz.
    by rewrite map_size_empty in Hsz.
  - intros Hnone. clear -Hnone. unfold omap in *.
    induction wire as [|[err|[tag val]] wire IH]; simpl in *; [done|done|].
    by rewrite IH.
Qed.

(** X3.  The map is written in wire order, so a tag decoded twice keeps its
    last value: the map is the decoded pairs with later pairs overriding
    earlier ones, its keys are exactly the decoded tags, and the tag
    sequence still lists every occurrence. *)
Theorem decoder_last_value_wins dataRaw ctx dataBuff :
  readContext t dataRaw = inr (ctx, dataBuff) ->
  let pairs := omap wirePair (wireArgs t (N.to_nat (Argnum ctx)) dataBuff) in
  exists errs rawEvent,
    decodeRawEvent t dataRaw = Returned (errs, Some rawEvent) /\
    RawArgs rawEvent = list_to_map (reverse pairs) /\
    dom (RawArgs rawEvent) = list_to_set pairs.*1 /\
    (forall pre post tag val,
       pairs = pre ++ (tag, val) :: post -> tag ∉ post.*1 ->
       RawArgs rawEvent !! tag = Some val) /\
    (forall tag val, (tag, val) ∈ pairs -> tag ∈ ArgsTags rawEvent).
Proof.
  intros Hctx pairs. eexists _, _. split; [by apply decodeRawEvent_run|].
  fold pairs. simpl. split; [apply fillMap_list_to_map|].
  split; [apply fillMap_dom|]. split.
  - intros pre post tag val -> Hnot. by apply fillMap_last_wins.
  - intros tag val Hin. unfold pairs in Hin.
    apply list_elem_of_omap in Hin as (r & Hr & Hp).
    apply list_elem_of_fmap. exists r. split; [|done].
    destruct r as [err|[tag' val']]; simpl in *; [done|]. by injection Hp as -> ->.
Qed.

End DecoderMore.

(** ** processRawEvent over a stream *)

Section ProcessorMore.
Context {value meta Event : Type} (t : Tracee value meta Event).
Implicit Types (inbound : list (RawEvent value meta)).

Lemma processStage_cons ev inbound :
  processStage t (ev :: inbound) = processRawEvent t ev ++ processStage t inbound.
Proof. reflexivity. Qed.

Lemma procOuts_app (tr1 tr2 : list (procAction (value:=value) (meta:=meta))) :
  procOuts (tr1 ++ tr2) = procOuts tr1 ++ procOuts tr2.
Proof. unfold procOuts. apply omap_app. Qed.

Lemma procErrs_app (tr1 tr2 : list (procAction (value:=value) (meta:=meta))) :
  procErrs (tr1 ++ tr2) = procErrs tr1 ++ procErrs tr2.
Proof. unfold procErrs. apply omap_app. Qed.

(** One event: what goes out keeps the tag sequence, and exactly one of
    output and error is produced when the predicate holds. *)
Lemma processRawEvent_cases ev :
  (shouldProcessEvent t ev = false /\
     procOuts (processRawEvent t ev) = [] /\ procErrs (processRawEvent t ev) = []) \/
  (shouldProcessEvent t ev = true /\
     exists err, procOuts (processRawEvent t ev) = [] /\
                 procErrs (processRawEvent t ev) = [err]) \/
  (shouldProcessEvent t ev = true /\
     exists out, procOuts (processRawEvent t ev) = [out] /\
                 procErrs (processRawEvent t ev) = [] /\
                 ArgsTags out = ArgsTags ev).
Proof.
  unfold processRawEvent, procOuts, procErrs.
  destruct (shouldProcessEvent t ev); simpl; [|by left].
  right. destruct (processEvent t _ _) as [[[err|] ctx] rawArgs]; simpl.
  - left. split; [done|]. by exists err.
  - right. split; [done|]. by eexists.
Qed.

(** X4.  Over everything the inbound channel delivers, the filter stage
    calls the hook once for each event the predicate lets through and for no
    other, in arrival order; each of those ends as exactly one output or one
    error; and the outputs come in arrival order with their tag sequences
    untouched. *)
Theorem process_stage_conserves inbound :
  let trace := processStage t inbound in
  List.filter isHookCall trace =
    map (fun ev => CallProcessEvent (Ctx ev) (RawArgs ev))
        (List.filter (shouldProcessEvent t) inbound) /\
  length (procOuts trace) + length (procErrs trace) =
    length (List.filter (shouldProcessEvent t) inbound) /\
  map ArgsTags (procOuts trace) `sublist_of` map ArgsTags inbound.
Proof.
  simpl. split; [|split].
  - induction inbound as [|ev inbound IH]; [done|].
    rewrite processStage_cons, List.filter_app, IH. clear IH.
    unfold processRawEvent. cbn [List.filter].
    destruct (shouldProcessEvent t ev); simpl; [|done].
    by destruct (processEvent t _ _) as [[[err|] ctx] rawArgs].
  - induction inbound as [|ev inbound IH]; [done|].
    rewrite processStage_cons, procOuts_app, procErrs_app, !length_app.
    cbn [List.filter].
    destruct (processRawEvent_cases ev)
      as [(-> & -> & ->)|[(-> & err & -> & ->)|(-> & out & -> & -> & _)]];
      simpl in *; lia.
  - induction inbound as [|ev inbound IH]; [done|].
    rewrite processStage_cons, procOuts_app, map_app. cbn [map].
    destruct (processRawEvent_cases ev)
      as [(_ & -> & _)|[(_ & err & -> & _)|(_ & out & -> & _ & <-)]]; simpl.
    + by apply sublist_cons.
    + by apply sublist_cons.
    + by apply sublist_skip.
Qed.

End ProcessorMore.

(** ** prepareEventForPrint: when it panics, and what it hands to newEvent *)

Section PreparerMore.
Context {value meta Event : Type} (t : Tracee value meta Event).




End PreparerMore.

(** ** getStackTrace: empty traces, ragged buffers, reading a trace back *)

Lemma renderTrace_cons a addr addrs :
  renderTrace (a :: addr :: addrs) =
  ("0x" +:+ fmtHex a) +:+ "," +:+ renderTrace (addr :: addrs).
Proof. reflexivity. Qed.

Lemma renderTrace_empty addrs : renderTrace addrs = "" <-> addrs = [].
Proof.
  split; [|by intros ->].
  destruct addrs as [|a [|addr addrs]]; [done| |]; intros H; exfalso.
  - unfold renderTrace in H. simpl in H. rewrite !append_cons in H. discriminate.
  - rewrite renderTrace_cons in H. rewrite !append_cons in H. discriminate.
Qed.

Lemma untilZero_nil ws : untilZero ws = [] <-> ws = [] \/ head ws = Some 0%N.
Proof.
  destruct ws as [|w ws]; simpl; [by split; [left|]|].
  destruct (w =? 0)%N eqn:Hw.
  - apply N.eqb_eq in Hw as ->. by split; [right|].
  - apply N.eqb_neq in Hw. split; [done|]. intros [?|[= ?]]; done.
Qed.

Lemma hexDigit_not_comma d : Ascii.eqb (hexDigit d) "," = false.
Proof.
  destruct (N.lt_ge_cases d 16) as [Hd|Hd].
  - destruct d as [|p]; [reflexivity|].
    do 4 (destruct p as [p|p|]; try reflexivity); exfalso; lia.
  - unfold hexDigit. remember (N.to_nat d) as n eqn:Hn.
    assert (16 <= n) as Hge by lia. clear Hn Hd.
    do 16 (destruct n as [|n]; [lia|]). reflexivity.
Qed.

Lemma hasComma_fmtHexFrom fuel : forall u acc,
  hasComma acc = false -> hasComma (fmtHexFrom fuel u acc) = false.
Proof.
  induction fuel as [|fuel IH]; intros u acc Hacc; cbn [fmtHexFrom].
  { cbn [hasComma]. by rewrite hexDigit_not_comma. }
  destruct (16 <=? u)%N.
  - apply IH. cbn [hasComma]. by rewrite hexDigit_not_comma.
  - cbn [hasComma]. by rewrite hexDigit_not_comma.
Qed.

Lemma hasComma_address a : hasComma ("0x" +:+ fmtHex a) = false.
Proof. rewrite !append_cons, append_nil. simpl. by apply hasComma_fmtHexFrom. Qed.

Lemma splitCommas_nonempty s : splitCommas s <> [].
Proof.
  induction s as [|c s IH]; simpl; [done|].
  destruct (Ascii.eqb c ","); [done|]. by destruct (splitCommas s).
Qed.

Lemma splitCommas_piece x : forall rest,
  hasComma x = false ->
  splitCommas (x +:+ "," +:+ rest) = x :: splitCommas rest.
Proof.
  induction x as [|c x IH]; intros rest Hx.
  { by rewrite append_nil, append_cons. }
  simpl in Hx. apply orb_false_iff in Hx as [Hc Hx].
  rewrite append_cons. simpl. by rewrite Hc, IH.
Qed.

Lemma splitCommas_last x : hasComma x = false -> splitCommas x = [x].
Proof.
  induction x as [|c x IH]; intros Hx; [done|].
  simpl in Hx. apply orb_false_iff in Hx as [Hc Hx].
  simpl. by rewrite Hc, IH.
Qed.

Lemma parseAddr_address a : parseAddr ("0x" +:+ fmtHex a) = Some a.
Proof. rewrite !append_cons, append_nil. simpl. by rewrite fmtHex_value. Qed.

Lemma splitCommas_renderTrace a addrs :
  splitCommas (renderTrace (a :: addrs)) =
  map (fun a => "0x" +:+ fmtHex a) (a :: addrs).
Proof.
  revert a. induction addrs as [|addr addrs IH]; intros a.
  - change (renderTrace [a]) with ("0x" +:+ fmtHex a).
    apply splitCommas_last, hasComma_address.
  - rewrite renderTrace_cons, splitCommas_piece by apply hasComma_address.
    by rewrite IH.
Qed.

(** The rendering can be read back: it determines the addresses. *)
Lemma parseTrace_renderTrace addrs : parseTrace (renderTrace addrs) = map Some addrs.
Proof.
  destruct addrs as [|a addrs]; [reflexivity|].
  unfold parseTrace.
  destruct (String.eqb _ "") eqn:Hempty.
  { apply String.eqb_eq in Hempty. by apply renderTrace_empty in Hempty. }
  rewrite splitCommas_renderTrace, map_map.
  apply map_ext. intros. apply parseAddr_address.
Qed.

Section StackTraceMore.
Context {value meta Event : Type} (t : Tracee value meta Event).
Local Arguments Uint64 : simpl never.

(** The loop on a 64-bit build over a buffer with [n] whole words after the
    cursor and then fewer than eight bytes up to its capacity. *)
Lemma stackLoop_ragged n : forall pre rest tail acc,
  arch t = Bits64 ->
  length rest = 8 * n ->
  0 < length tail < 8 ->
  stackLoop t (sliceOf (pre ++ rest ++ tail)) (length pre) acc =
  if decide (Forall (fun w => w <> 0%N) (wordsOf rest)) then Panicked
  else Returned (acc +:+ commaEach (untilZero (wordsOf rest))).
Proof.
  induction n as [|n IH]; intros pre rest tail acc Harch Hlen Htail;
    rewrite stackLoop_step; unfold sliceOf; cbn [slen];
    rewrite decide_True by (rewrite !length_app; lia);
    rewrite (stackFrameSize_64 t Harch).
  { destruct rest; [|done].
    unfold subslice, scap. cbn [backing app].
    rewrite decide_False by (rewrite length_app; lia). cbn [obind wordsOf].
    by rewrite decide_True by constructor. }
  do 8 (destruct rest as [|? rest]; [simpl in Hlen; lia|]).
  unfold subslice, scap. cbn [backing].
  rewrite decide_True by (rewrite !length_app; simpl; lia).
  replace (length pre + 8 - length pre) with 8 by lia.
  rewrite drop_app_length. simpl take. simpl obind.
  rewrite Uint64_le64. simpl wordsOf. simpl untilZero.
  destruct (le64 _ _ _ _ _ _ _ _ =? 0)%N eqn:Hz.
  { apply N.eqb_eq in Hz. rewrite decide_False.
    - by rewrite append_empty_r.
    - intros Hall. by apply Forall_cons in Hall as [? _]. }
  apply N.eqb_neq in Hz.
  specialize (IH (pre ++ [b; b0; b1; b2; b3; b4; b5; b6]) rest tail
                 (acc +:+ "0x" +:+ fmtHex (le64 b b0 b1 b2 b3 b4 b5 b6) +:+ ",") Harch).
  rewrite <- !app_assoc in IH. simpl in IH. rewrite length_app in IH. simpl in IH.
  unfold sliceOf in IH. simpl app.
  rewrite IH by (simpl in Hlen; lia).
  destruct (decide (Forall _ (wordsOf rest))) as [Hall|Hnot].
  - rewrite decide_True; [done|]. by constructor.
  - rewrite decide_False.
    + f_equal. simpl commaEach. by rewrite !append_assoc.
    + intros Hall. by apply Forall_cons in Hall as [_ ?].
Qed.

(** X8.  On a 64-bit build and a buffer of whole words, the trace comes out
    empty exactly when the buffer has no word or its first word is zero: a
    stack that starts with the zero sentinel cannot be told from a lookup
    that failed. *)
Theorem empty_trace_iff_no_leading_address StackID stackTracesMap stackBytes :
  arch t = Bits64 ->
  GetMap (bpfModule t) "stack_traces" = inr stackTracesMap ->
  GetValue stackTracesMap (slice4 StackID) (stackFrameSize t * maxStackDepth)
    = inr stackBytes ->
  slen stackBytes <= scap stackBytes ->
  (8 | slen stackBytes) ->
  let words := wordsOf (take (slen stackBytes) (backing stackBytes)) in
  getStackTrace t StackID = Returned ("", None) <->
  words = [] \/ head words = Some 0%N.
Proof.
  intros Harch Hmap Hval Hcap Hdiv words.
  rewrite (getStackTrace_words t StackID stackTracesMap stackBytes) by done.
  fold words. rewrite <- untilZero_nil, <- renderTrace_empty.
  split; [by intros [= ->] | by intros ->].
Qed.

(** X9.  On a 64-bit build, a buffer whose length is not a multiple of
    eight (and which has no spare capacity) makes getStackTrace panic on the
    bytes left over, unless a zero word among the whole words stops the loop
    first; in that case the trace is rendered as usual. *)
Theorem ragged_buffer_panics StackID stackTracesMap whole rest :
  arch t = Bits64 ->
  GetMap (bpfModule t) "stack_traces" = inr stackTracesMap ->
  GetValue stackTracesMap (slice4 StackID) (stackFrameSize t * maxStackDepth)
    = inr (sliceOf (whole ++ rest)) ->
  (8 | length whole) ->
  0 < length rest < 8 ->
  (Forall (fun w => w <> 0%N) (wordsOf whole) ->
     getStackTrace t StackID = Panicked) /\
  (~ Forall (fun w => w <> 0%N) (wordsOf whole) ->
     getStackTrace t StackID = Returned (renderTrace (untilZero (wordsOf whole)), None)).
Proof.
  intros Harch Hmap Hval [n Hn] Hrest.
  unfold getStackTrace. rewrite Hmap, Hval.
  pose proof (stackLoop_ragged n [] whole rest "" Harch) as Hloop.
  simpl in Hloop. rewrite Hloop by lia.
  split; intros Hall.
  - by rewrite decide_True.
  - rewrite decide_False by done. simpl.
    by rewrite append_nil, TrimSuffix_commaEach.
Qed.

(** X10.  The trace string determines the addresses: on a 64-bit build and
    a buffer of whole words, splitting the returned string at the commas and
    reading each piece after its [0x] in base 16 gives back the addresses
    before the first zero word, in order. *)
Theorem stack_trace_reads_back StackID stackTracesMap stackBytes :
  arch t = Bits64 ->
  GetMap (bpfModule t) "stack_traces" = inr stackTracesMap ->
  GetValue stackTracesMap (slice4 StackID) (stackFrameSize t * maxStackDepth)
    = inr stackBytes ->
  slen stackBytes <= scap stackBytes ->
  (8 | slen stackBytes) ->
  exists trace,
    getStackTrace t StackID = Returned (trace, None) /\
    parseTrace trace =
      map Some (untilZero (wordsOf (take (slen stackBytes) (backing stackBytes)))).
Proof.
  intros Harch Hmap Hval Hcap Hdiv. eexists. split.
  - by apply (getStackTrace_words t StackID stackTracesMap stackBytes).
  - apply parseTrace_renderTrace.
Qed.

End StackTraceMore.

(** ** The pipeline: nothing lost, nothing twice, the counter *)

Section PipelineMore.
Context {value meta Event : Type} (t : Tracee value meta Event).
Implicit Types (p : pipeline value meta Event).
Local Abbreviation start := (@startPipeline value meta Event).

Lemma survivors_head k dataRaw items :
  survivors t ((k, dataRaw) :: items) =
  match decodeRawEvent t dataRaw with
  | Returned (_, Some rawEvent) => option_list (afterProcess t (k, rawEvent))
  | _ => []
  end ++ survivors t items.
Proof.
  rewrite survivors_cons. f_equal. unfold endToEnd, afterProcess, afterPrepare.
  cbn [fst snd].
  destruct (decodeRawEvent t dataRaw) as [[errs [rawEvent|]]|]; try reflexivity.
  destruct (procOuts (processRawEvent t rawEvent)) as [|processed outs];
    try reflexivity.
  by destruct (prepareEventForPrint t processed) as [[errs' [evt|]]|].
Qed.

Lemma omap_head {A B} (f : A -> option B) x l :
  omap f (x :: l) = option_list (f x) ++ omap f l.
Proof. unfold omap. simpl. by destruct (f x). Qed.

Lemma afterProcess_out k rawEvent :
  omap (afterPrepare t) (map (pair k) (procOuts (processRawEvent t rawEvent))) =
  option_list (afterProcess t (k, rawEvent)).
Proof.
  unfold afterProcess. cbn [fst snd].
  destruct (procOuts_at_most_one t rawEvent) as [->|[ev ->]]; [done|].
  cbn [map]. rewrite omap_head. cbn [omap list_omap]. by rewrite app_nil_r.
Qed.

(** A step that is not a return on [<-done] leaves the printed events and
    the events still to print, taken together, as they were; a return on
    [<-done] takes one event out. *)
Lemma afterPrepare_of k rawEvent r :
  prepareEventForPrint t rawEvent = r ->
  afterPrepare t (k, rawEvent) =
  match r with Returned (_, Some evt) => Some (k, evt) | _ => None end.
Proof. by intros <-. Qed.

Lemma omap_from_option {A B C} (f : A -> option B) (g : C -> A) (o : option C) :
  omap f (from_option (fun x => [g x]) [] o) =
  match o with Some x => option_list (f (g x)) | None => [] end.
Proof. destruct o; [|done]. cbn [from_option]. rewrite omap_head. apply app_nil_r. Qed.

Lemma step_total p p' :
  step t p p' ->
  printed p' ++ stillToPrint t p' `sublist_of` printed p ++ stillToPrint t p /\
  (cancelled p' = false -> cancelled p = false /\
     printed p' ++ stillToPrint t p' = printed p ++ stillToPrint t p).
Proof.
  assert (forall l l' : list (nat * Event), l' = l ->
            l' `sublist_of` l /\ (cancelled p' = false -> cancelled p' = false /\ l' = l))
    as Hsame by (by intros ?? ->).
  destruct 1; unfold stillToPrint;
    cbn [eventsChannel rawEventChan processedEventChan printEventChan printed cancelled]
      in *;
    repeat match goal with H : _ = _ :: _ |- _ => rewrite H; clear H end.
  - split; [done|]. done.
  - apply Hsame. rewrite survivors_head, omap_app.
    match goal with H : decodeRawEvent _ _ = _ |- _ => rewrite H end.
    rewrite (omap_from_option _ (pair k)), <- !app_assoc. by destruct out.
  - rewrite survivors_head.
    match goal with H : decodeRawEvent _ _ = _ |- _ => rewrite H end.
    split; [|congruence].
    do 4 (apply sublist_app; [done|]). by apply sublist_inserts_l.
  - apply Hsame. rewrite survivors_head.
    by match goal with H : decodeRawEvent _ _ = _ |- _ => rewrite H end.
  - apply Hsame.
    by rewrite omap_app, afterProcess_out, omap_head, <- !app_assoc.
  - rewrite omap_head, <- !app_assoc. split; [|congruence].
    do 3 (apply sublist_app; [done|]). by apply sublist_inserts_l.
  - apply Hsame. rewrite omap_head.
    match goal with
    | H : prepareEventForPrint _ _ = _ |- _ => rewrite (afterPrepare_of k _ _ H)
    end.
    rewrite <- !app_assoc. by destruct out.
  - rewrite omap_head, <- !app_assoc. split; [|congruence].
    do 2 (apply sublist_app; [done|]). by apply sublist_inserts_l.
  - apply Hsame. rewrite omap_head.
    by match goal with
       | H : prepareEventForPrint _ _ = _ |- _ => rewrite (afterPrepare_of k _ _ H)
       end.
  - apply Hsame. by rewrite <- !app_assoc.
Qed.

Lemma total_start source :
  printed (start source) ++ stillToPrint t (start source) =
  survivors t (zip (seq 0 (length source)) source).
Proof. reflexivity. Qed.

Lemma reachable_total source p :
  rtc (step t) (start source) p ->
  printed p ++ stillToPrint t p `sublist_of`
    survivors t (zip (seq 0 (length source)) source) /\
  (cancelled p = false ->
     printed p ++ stillToPrint t p = survivors t (zip (seq 0 (length source)) source)).
Proof.
  intros Hrun.
  refine (rtc_ind_r (fun p =>
    printed p ++ stillToPrint t p `sublist_of`
      survivors t (zip (seq 0 (length source)) source) /\
    (cancelled p = false ->
       printed p ++ stillToPrint t p =
       survivors t (zip (seq 0 (length source)) source)))
    (start source) _ _ p Hrun).
  - by rewrite total_start.
  - intros p1 p2 _ Hstep [IHsub IHeq].
    destruct (step_total p1 p2 Hstep) as [Hsub Heq]. split.
    + by etrans.
    + intros Hopen. destruct (Heq Hopen) as [Hopen1 ->]. by apply IHeq.
Qed.


Lemma StronglySorted_lt_NoDup (l : list nat) : StronglySorted lt l -> NoDup l.
Proof.
  induction 1 as [|x l _ IH Hx]; constructor; [|done].
  intros Hin. rewrite Forall_forall in Hx. specialize (Hx x Hin). lia.
Qed.

(** X11.  Under every interleaving, with or without cancellation and
    panics: what has been printed, followed by what is still on its way, is
    always a subsequence of the surviving events of the source in source
    order.  So nothing is printed that the stages would drop, nothing is
    printed out of order, and no event is printed twice. *)
Theorem pipeline_prints_only_survivors source p :
  rtc (step t) (start source) p ->
  printed p ++ stillToPrint t p `sublist_of`
    survivors t (zip (seq 0 (length source)) source) /\
  printed p `sublist_of` survivors t (zip (seq 0 (length source)) source) /\
  NoDup (printed p).*1.
Proof.
  intros Hrun. destruct (reachable_total source p Hrun) as [Hsub _].
  split; [exact Hsub|]. split.
  - etrans; [|exact Hsub]. by apply sublist_inserts_r.
  - apply StronglySorted_lt_NoDup.
    apply reachable_sorted in Hrun. unfold inFlight in Hrun.
    by apply StronglySorted_app_1_l in Hrun.
Qed.




End PipelineMore.

(** ** MergeErrors and WaitForPipeline *)

Lemma fromChannel_app i (l1 l2 : list (nat * error)) :
  fromChannel i (l1 ++ l2) = fromChannel i l1 ++ fromChannel i l2.
Proof. unfold fromChannel. by rewrite List.filter_app, fmap_app. Qed.

Lemma fromChannel_same i err : fromChannel i [(i, err)] = [err].
Proof. unfold fromChannel. simpl. by rewrite Nat.eqb_refl. Qed.

Lemma fromChannel_other i j err : i <> j -> fromChannel j [(i, err)] = [].
Proof.
  intros Hne. unfold fromChannel. simpl.
  by destruct (Nat.eqb_spec i j).
Qed.

Lemma concat_insert_length (cs : list (list error)) i err rest :
  cs !! i = Some (err :: rest) ->
  S (length (concat (<[i := rest]> cs))) = length (concat cs).
Proof.
  intros Hi. pose proof (lookup_lt_Some _ _ _ Hi) as Hlt.
  rewrite <- (take_drop_middle cs i (err :: rest) Hi) at 2.
  rewrite insert_take_drop by done.
  rewrite !concat_app, !length_app. simpl. rewrite ?length_app. simpl. lia.
Qed.

Lemma filter_id_insert_length (bs : list bool) i :
  bs !! i = Some true ->
  S (length (List.filter id (<[i := false]> bs))) = length (List.filter id bs).
Proof.
  intros Hi. pose proof (lookup_lt_Some _ _ _ Hi) as Hlt.
  rewrite <- (take_drop_middle bs i true Hi) at 2.
  rewrite insert_take_drop by done.
  rewrite !List.filter_app, !length_app. simpl. lia.
Qed.

Lemma all_drained (cs : list (list error)) (bs : list bool) :
  length bs = length cs ->
  (forall i, bs !! i = Some false -> cs !! i = Some []) ->
  Forall (fun b => b = false) bs ->
  Forall (fun c => c = []) cs.
Proof.
  intros Hlen Hdone Hall. apply Forall_lookup. intros i c Hc.
  pose proof (lookup_lt_Some _ _ _ Hc) as Hlt.
  destruct (lookup_lt_is_Some_2 bs i) as [b Hb]; [lia|].
  rewrite Forall_lookup in Hall. rewrite (Hall i b Hb) in Hb.
  specialize (Hdone i Hb). congruence.
Qed.

Lemma concat_drained (cs : list (list error)) :
  Forall (fun c => c = []) cs -> concat cs = [].
Proof. induction 1 as [|c cs -> _ IH]; [done|]. simpl. exact IH. Qed.

Lemma mergeInv_start cs : mergeInv cs (startMerge cs).
Proof.
  unfold mergeInv, startMerge. simpl.
  split; [done|]. split; [done|]. split; [apply length_replicate|].
  split; [lia|]. split.
  { intros i errs Hi. exists errs. split; [done|]. done. }
  split.
  { intros i Hi. apply lookup_replicate in Hi as [? _]. done. }
  split; [done|]. split; [done|]. split.
  { intros x Hx. by apply elem_of_nil in Hx. }
  done.
Qed.

Lemma mergeInv_step cs m m' : mstep m m' -> mergeInv cs m -> mergeInv cs m'.
Proof.
  intros Hstep (Hpanic & Hlen & Hlenb & Hbuf & Hchan & Hdone & Hclosed & Hret & Hidx & Hcount).
  destruct Hstep as [m i err rest _ Hcopy Hci Hopen Hroom
                    |m i err rest _ Hcopy Hci Hcl
                    |m i _ Hcopy Hci
                    |m _ Hall Hopen
                    |m i err rest _ Hrun Hout
                    |m _ Hrun Hout Hcl]; unfold mergeInv; simpl.
  - pose proof (lookup_lt_Some _ _ _ Hci) as Hilt.
    split; [done|]. split; [by rewrite length_insert|]. split; [done|].
    split; [rewrite length_app; simpl; lia|]. split.
    { intros j errs Hj. destruct (Hchan j errs Hj) as (restj & Hrj & Heq).
      destruct (decide (i = j)) as [<-|Hne].
      - exists rest. rewrite list_lookup_insert_eq by done. split; [done|].
        rewrite app_assoc, fromChannel_app, fromChannel_same, <- app_assoc. simpl.
        rewrite Hci in Hrj. by injection Hrj as <-.
      - exists restj. rewrite list_lookup_insert_ne by done. split; [done|].
        rewrite app_assoc, fromChannel_app, fromChannel_other, app_nil_r by done.
        done. }
    split.
    { intros j Hj. destruct (decide (i = j)) as [<-|Hne]; [congruence|].
      rewrite list_lookup_insert_ne by done. by apply Hdone. }
    split; [done|]. split; [intros Hr; destruct (Hret Hr); congruence|]. split.
    { intros x Hx. rewrite app_assoc in Hx. apply elem_of_app in Hx as [Hx|Hx].
      - by apply Hidx.
      - apply list_elem_of_singleton in Hx as ->. simpl. lia. }
    pose proof (concat_insert_length _ _ _ _ Hci). rewrite length_app. simpl. lia.
  - exfalso. specialize (Hclosed Hcl). rewrite Forall_lookup in Hclosed.
    by specialize (Hclosed i true Hcopy).
  - pose proof (lookup_lt_Some _ _ _ Hcopy) as Hilt.
    split; [done|]. split; [done|]. split; [by rewrite length_insert|].
    split; [done|]. split; [done|]. split.
    { intros j Hj. destruct (decide (i = j)) as [<-|Hne]; [done|].
      rewrite list_lookup_insert_ne in Hj by done. by apply Hdone. }
    split; [intros Hc; by apply Forall_insert; [apply Hclosed|]|].
    done.
  - split; [done|]. split; [done|]. split; [done|]. split; [done|].
    split; [done|]. split; [done|]. split; [done|]. split; [|done].
    intros Hr. destruct (Hret Hr). congruence.
  - rewrite Hout in *. simpl in *.
    split; [done|]. split; [done|]. split; [done|]. split; [lia|].
    rewrite <- !app_assoc. simpl.
    split; [done|]. split; [done|]. split; [done|].
    split; [intros Hr; congruence|]. split; [done|].
    rewrite length_app. simpl. lia.
  - split; [done|]. split; [done|]. split; [done|]. split; [done|].
    split; [done|]. split; [done|]. split; [done|]. done.
Qed.

Lemma mergeInv_reachable cs m : rtc mstep (startMerge cs) m -> mergeInv cs m.
Proof.
  intros Hrun.
  refine (rtc_ind_r (mergeInv cs) (startMerge cs) _ _ m Hrun).
  - apply mergeInv_start.
  - intros m1 m2 _ Hstep IH. by eapply mergeInv_step.
Qed.

(** Every step does one unit of the work that is left. *)
Lemma mstep_work cs m m' :
  mergeInv cs m -> mstep m m' -> S (mergeWork m') = mergeWork m.
Proof.
  intros (Hpanic & Hlen & Hlenb & Hbuf & Hchan & Hdone & Hclosed & Hret & Hidx & Hcount) Hstep.
  destruct Hstep as [m i err rest _ Hcopy Hci Hopen Hroom
                    |m i err rest _ Hcopy Hci Hcl
                    |m i _ Hcopy Hci
                    |m _ Hall Hopen
                    |m i err rest _ Hrun Hout
                    |m _ Hrun Hout Hcl]; unfold mergeWork; simpl.
  - pose proof (concat_insert_length _ _ _ _ Hci). rewrite length_app. simpl. lia.
  - exfalso. specialize (Hclosed Hcl). rewrite Forall_lookup in Hclosed.
    by specialize (Hclosed i true Hcopy).
  - pose proof (filter_id_insert_length _ _ Hcopy). lia.
  - rewrite Hopen. lia.
  - rewrite Hout. simpl. lia.
  - rewrite Hrun. lia.
Qed.

(** While WaitForPipeline has not returned, some goroutine can take a
    step. *)
Lemma merge_progress cs m :
  mergeInv cs m -> mg_returned m = false -> exists m', mstep m m'.
Proof.
  intros (Hpanic & Hlen & Hlenb & Hbuf & Hchan & Hdone & Hclosed & Hret & Hidx & Hcount) Hrun.
  destruct (mg_out m) as [|[i err] out] eqn:Hout.
  2: { eexists. by eapply mstep_handle. }
  destruct (decide (Forall (fun c => c = []) (mg_cs m))) as [Hempty|Hsome].
  - destruct (decide (Forall (fun b => b = false) (mg_copying m))) as [Hall|Hnot].
    + destruct (mg_closed m) eqn:Hcl.
      * eexists. by eapply mstep_return.
      * eexists. by eapply mstep_close.
    + apply not_Forall_Exists in Hnot; [|apply _].
      apply Exists_exists in Hnot as (b & Hb & Hbt).
      apply list_elem_of_lookup in Hb as [i Hi].
      destruct b; [|by destruct Hbt].
      pose proof (lookup_lt_Some _ _ _ Hi) as Hilt.
      destruct (lookup_lt_is_Some_2 (mg_cs m) i) as [c Hc]; [lia|].
      rewrite Forall_lookup in Hempty. rewrite (Hempty i c Hc) in Hc.
      eexists. by eapply mstep_done.
  - apply not_Forall_Exists in Hsome; [|apply _].
    apply Exists_exists in Hsome as (c & Hc & Hne).
    apply list_elem_of_lookup in Hc as [i Hi].
    destruct c as [|err rest]; [by destruct Hne|].
    pose proof (lookup_lt_Some _ _ _ Hi) as Hilt.
    destruct (lookup_lt_is_Some_2 (mg_copying m) i) as [b Hb]; [lia|].
    destruct b; [|specialize (Hdone i Hb); congruence].
    destruct (mg_closed m) eqn:Hcl.
    { specialize (Hclosed eq_refl). rewrite Forall_lookup in Hclosed.
      by specialize (Hclosed i true Hb). }
    eexists. eapply mstep_copy; try done. rewrite Hout. simpl. lia.
Qed.

Section FanIn.
Variable cs : list (list error).

(** X15.  The fan-in never sends on a closed channel and never holds more
    errors in the buffer of [out] than [cs] has channels; [out] is closed
    only once every channel of [cs] is drained and every [output] goroutine
    has finished. *)
Theorem merge_never_sends_on_closed m :
  rtc mstep (startMerge cs) m ->
  mg_panicked m = false /\
  length (mg_out m) <= length cs /\
  (mg_closed m = true ->
     Forall (fun c => c = []) (mg_cs m) /\
     Forall (fun b => b = false) (mg_copying m)).
Proof.
  intros Hrun.
  destruct (mergeInv_reachable cs m Hrun)
    as (Hpanic & Hlen & Hlenb & Hbuf & Hchan & Hdone & Hclosed & Hret & Hidx & Hcount).
  split; [done|]. split; [done|]. intros Hcl. split; [|by apply Hclosed].
  apply (all_drained _ (mg_copying m)); [lia|done|by apply Hclosed].
Qed.

(** X16.  The error handler sees the errors of each channel in the order
    the channel delivered them, at every moment; and when WaitForPipeline
    returns, every error of every channel has been handed to the handler
    exactly once. *)
Theorem merge_handles_each_error_once m :
  rtc mstep (startMerge cs) m ->
  (forall i errs, cs !! i = Some errs ->
     fromChannel i (mg_handled m) `prefix_of` errs) /\
  (mg_returned m = true ->
     (forall i errs, cs !! i = Some errs -> fromChannel i (mg_handled m) = errs) /\
     length (mg_handled m) = length (concat cs)).
Proof.
  intros Hrun.
  destruct (mergeInv_reachable cs m Hrun)
    as (Hpanic & Hlen & Hlenb & Hbuf & Hchan & Hdone & Hclosed & Hret & Hidx & Hcount).
  split.
  - intros i errs Hi. destruct (Hchan i errs Hi) as (rest & _ & Heq).
    rewrite fromChannel_app, <- app_assoc in Heq. by eexists.
  - intros Hr. destruct (Hret Hr) as [Hcl Hout].
    assert (Forall (fun c => c = []) (mg_cs m)) as Hdrained.
    { apply (all_drained _ (mg_copying m)); [lia|done|by apply Hclosed]. }
    split.
    + intros i errs Hi. destruct (Hchan i errs Hi) as (rest & Hrest & Heq).
      rewrite Forall_lookup in Hdrained. rewrite (Hdrained i rest Hrest) in Heq.
      by rewrite Hout, !app_nil_r in Heq.
    + rewrite Hout, (concat_drained _ Hdrained) in Hcount. simpl in Hcount. lia.
Qed.

(** X17.  The fan-in cannot get stuck and cannot run for ever: until
    WaitForPipeline has returned some goroutine can always take a step, and
    a run of [n] steps has done exactly [n] units of the work there was at
    the start, which is two for each error, one for each channel, and two. *)
Theorem merge_always_finishes n m :
  nsteps mstep n (startMerge cs) m ->
  (mg_returned m = false -> exists m', mstep m m') /\
  n + mergeWork m = 2 * length (concat cs) + length cs + 2 /\
  (mergeWork m = 0 <-> mg_returned m = true).
Proof.
  intros Hrun.
  assert (mergeInv cs m) as Hinv.
  { apply mergeInv_reachable. by eapply rtc_nsteps_2. }
  split; [by apply (merge_progress cs)|]. split.
  - clear Hinv. revert m Hrun. induction n as [|n IH]; intros m Hrun.
    + inversion Hrun; subst. unfold mergeWork, startMerge. simpl.
      assert (length (List.filter id (replicate (length cs) true)) = length cs) as ->.
      { induction (length cs) as [|k IHk]; simpl; [done|]. by rewrite IHk. }
      lia.
    + apply nsteps_inv_r in Hrun as (m1 & Hrun & Hstep).
      specialize (IH m1 Hrun).
      assert (mergeInv cs m1) as Hinv1.
      { apply mergeInv_reachable. by eapply rtc_nsteps_2. }
      pose proof (mstep_work cs m1 m Hinv1 Hstep). lia.
  - destruct Hinv
      as (Hpanic & Hlen & Hlenb & Hbuf & Hchan & Hdone & Hclosed & Hret & Hidx & Hcount).
    unfold mergeWork. split.
    + destruct (mg_returned m); [done|]. lia.
    + intros Hr. destruct (Hret Hr) as [Hcl Hout].
      assert (Forall (fun c => c = []) (mg_cs m)) as Hdrained.
      { apply (all_drained _ (mg_copying m)); [lia|done|by apply Hclosed]. }
      rewrite Hr, Hcl, Hout, (concat_drained _ Hdrained). simpl.
      specialize (Hclosed Hcl). clear -Hclosed.
      induction Hclosed as [|b bs -> _ IH]; simpl; [done|]. exact IH.
Qed.

End FanIn.

(** ** The further properties on the sample instance *)

Lemma decoder_total_witness :
  decodeRawEvent Sample.t64 [x07; x02] = Returned (["unexpected EOF"], None) /\
  exists errs rawEvent,
    decodeRawEvent Sample.t64 Sample.buf7bad = Returned (errs, Some rawEvent) /\
    Ctx rawEvent = Sample.ctx7.
Proof.
  split.
  - destruct (decoder_total Sample.t64 [x07; x02]) as (errs & out & Hdec & Hfail & _).
    destruct (Hfail "unexpected EOF" eq_refl) as [-> ->]. exact Hdec.
  - destruct (decoder_total Sample.t64 Sample.buf7bad) as (errs & out & Hdec & _ & Hok).
    destruct (Hok Sample.ctx7 Sample.args7bad eq_refl) as (rawEvent & -> & Hctx).
    by exists errs, rawEvent.
Defined.

Lemma decoder_accounts_for_every_argument_witness :
  readContext Sample.t64 Sample.buf7bad = inr (Sample.ctx7, Sample.args7bad) /\
  exists errs rawEvent,
    decodeRawEvent Sample.t64 Sample.buf7bad = Returned (errs, Some rawEvent) /\
    errs = ["unknown argument type"] /\
    size (RawArgs rawEvent) <= 1.
Proof.
  split; [reflexivity|].
  destruct (decoder_accounts_for_every_argument Sample.t64 Sample.buf7bad
              Sample.ctx7 Sample.args7bad eq_refl)
    as (errs & rawEvent & Hdec & Herrs & _ & Hsize & _).
  exists errs, rawEvent. split; [exact Hdec|]. split; [exact Herrs|]. exact Hsize.
Defined.

Lemma decoder_last_value_wins_witness :
  readContext Sample.t64 SampleMore.buf7dup
    = inr (SampleMore.ctx7dup, SampleMore.args7dup) /\
  exists errs rawEvent,
    decodeRawEvent Sample.t64 SampleMore.buf7dup = Returned (errs, Some rawEvent) /\
    RawArgs rawEvent !! 1%N = Some 44%N /\
    size (RawArgs rawEvent) = 2 /\
    ArgsTags rawEvent = [1%N; 2%N; 1%N].
Proof.
  split; [reflexivity|].
  destruct (decoder_last_value_wins Sample.t64 SampleMore.buf7dup
              SampleMore.ctx7dup SampleMore.args7dup eq_refl)
    as (errs & rawEvent & Hdec & Hmap & _ & Hlast & _).
  exists errs, rawEvent. split; [exact Hdec|]. split.
  - apply (Hlast [(1%N, 42%N); (2%N, 43%N)] [] 1%N 44%N); [reflexivity|].
    apply not_elem_of_nil.
  - vm_compute in Hdec. injection Hdec as _ <-. split; reflexivity.
Defined.

Lemma process_stage_conserves_witness :
  length (procOuts (processStage Sample.t64
            [Sample.evWithID 7; Sample.evWithID 9; Sample.evWithID 8; Sample.evWithID 6])) +
  length (procErrs (processStage Sample.t64
            [Sample.evWithID 7; Sample.evWithID 9; Sample.evWithID 8; Sample.evWithID 6]))
  = 3.
Proof.
  destruct (process_stage_conserves Sample.t64
              [Sample.evWithID 7; Sample.evWithID 9; Sample.evWithID 8; Sample.evWithID 6])
    as (_ & Hcount & _).
  exact Hcount.
Defined.




Lemma empty_trace_iff_no_leading_address_witness :
  getStackTrace SampleMore.tZeroFirst (x00, x00, x00, x01) = Returned ("", None) /\
  getStackTrace Sample.t64 (x00, x00, x00, x01) <> Returned ("", None).
Proof.
  split.
  - apply (proj2 (empty_trace_iff_no_leading_address SampleMore.tZeroFirst
                    (x00, x00, x00, x01) SampleMore.zeroFirstTable
                    (sliceOf (PutUint64 0x00 ++ PutUint64 0x30))
                    eq_refl eq_refl eq_refl ltac:(vm_compute; lia)
                    ltac:(exists 2; reflexivity))).
    right. reflexivity.
  - intros Hempty.
    apply (proj1 (empty_trace_iff_no_leading_address Sample.t64
                    (x00, x00, x00, x01) Sample.stackTable
                    (sliceOf Sample.stackWords)
                    eq_refl eq_refl eq_refl ltac:(vm_compute; lia)
                    ltac:(exists 4; reflexivity))) in Hempty.
    vm_compute in Hempty. destruct Hempty as [Hnil|Hzero]; discriminate.
Defined.

Lemma ragged_buffer_panics_witness :
  length [x01; x02; x03] = 3 /\
  getStackTrace SampleMore.tRagged (x00, x00, x00, x01) = Panicked.
Proof.
  split; [reflexivity|].
  destruct (ragged_buffer_panics SampleMore.tRagged (x00, x00, x00, x01)
              SampleMore.raggedTable (PutUint64 0x10) [x01; x02; x03])
    as [Hpanic _].
  - reflexivity.
  - reflexivity.
  - reflexivity.
  - exists 1. reflexivity.
  - vm_compute. lia.
  - apply Hpanic. vm_compute. repeat constructor. discriminate.
Defined.

Lemma stack_trace_reads_back_witness :
  exists trace,
    getStackTrace Sample.t64 (x00, x00, x00, x01) = Returned (trace, None) /\
    parseTrace trace = [Some 16%N; Some 32%N].
Proof.
  destruct (stack_trace_reads_back Sample.t64 (x00, x00, x00, x01)
              Sample.stackTable (sliceOf Sample.stackWords))
    as (trace & Htrace & Hparse).
  - reflexivity.
  - reflexivity.
  - reflexivity.
  - vm_compute. lia.
  - exists 4. reflexivity.
  - exists trace. split; [exact Htrace|]. rewrite Hparse. reflexivity.
Defined.

Lemma pipeline_prints_only_survivors_witness :
  exists p,
    rtc (step Sample.t64) (startPipeline [Sample.buf7; Sample.buf6]) p /\
    cancelled p = true /\
    printed p =
      [(0, Sample.MkEvent 7 ["pathname"; "flags"] [Some 42%N; Some 43%N] "")] /\
    printed p `sublist_of`
      survivors Sample.t64 (zip (seq 0 2) [Sample.buf7; Sample.buf6]) /\
    NoDup (printed p).*1.
Proof.
  assert (rtc (step Sample.t64) (startPipeline [Sample.buf7; Sample.buf6])
    (MkPipeline [] [] [] []
      [(0, Sample.MkEvent 7 ["pathname"; "flags"] [Some 42%N; Some 43%N] "")]
      1 [] true true false false false)) as Hrun.
  { unfold startPipeline. simpl zip.
    stage @step_decode. stage @step_process. stage @step_prepare.
    stage @step_print.
    eapply rtc_l; [apply step_cancel|channels].
    stage @step_decode_done.
    apply rtc_refl. }
  eexists. split; [exact Hrun|]. split; [reflexivity|]. split; [reflexivity|].
  exact (proj2 (pipeline_prints_only_survivors Sample.t64
                  [Sample.buf7; Sample.buf6] _ Hrun)).
Defined.




(** A run of the fan-in over the sample channels to the return of
    WaitForPipeline. *)
Lemma sample_fanin_run :
  nsteps mstep 11 (startMerge SampleMore.errChannels)
    (MkMerger [[]; []; []] [false; false; false] [] true
       [(0, "bad header"); (2, "Invalid arg tag for event 6"); (0, "bad argument")]
       true false).
Proof.
  unfold startMerge, SampleMore.errChannels. simpl replicate.
  eapply nsteps_l; [eapply (mstep_copy _ 0); [reflexivity..|simpl; lia]|]; simpl.
  eapply nsteps_l; [eapply (mstep_copy _ 2); [reflexivity..|simpl; lia]|]; simpl.
  eapply nsteps_l; [eapply mstep_handle; reflexivity|]; simpl.
  eapply nsteps_l; [eapply (mstep_done _ 1); reflexivity|]; simpl.
  eapply nsteps_l; [eapply mstep_handle; reflexivity|]; simpl.
  eapply nsteps_l; [eapply (mstep_copy _ 0); [reflexivity..|simpl; lia]|]; simpl.
  eapply nsteps_l; [eapply mstep_handle; reflexivity|]; simpl.
  eapply nsteps_l; [eapply (mstep_done _ 0); reflexivity|]; simpl.
  eapply nsteps_l; [eapply (mstep_done _ 2); reflexivity|]; simpl.
  eapply nsteps_l;
    [eapply mstep_close; [reflexivity|repeat constructor|reflexivity]|]; simpl.
  eapply nsteps_l; [eapply mstep_return; reflexivity|]; simpl.
  apply nsteps_O.
Defined.

Lemma merge_never_sends_on_closed_witness :
  exists m,
    rtc mstep (startMerge SampleMore.errChannels) m /\
    mg_closed m = true /\ mg_panicked m = false /\
    Forall (fun c => c = []) (mg_cs m).
Proof.
  eexists. split; [exact (rtc_nsteps_2 _ _ _ sample_fanin_run)|].
  split; [reflexivity|].
  destruct (merge_never_sends_on_closed SampleMore.errChannels _
              (rtc_nsteps_2 _ _ _ sample_fanin_run)) as (Hpanic & _ & Hclosed).
  split; [exact Hpanic|]. exact (proj1 (Hclosed eq_refl)).
Defined.

Lemma merge_handles_each_error_once_witness :
  exists m,
    rtc mstep (startMerge SampleMore.errChannels) m /\
    mg_returned m = true /\
    fromChannel 0 (mg_handled m) = ["bad header"; "bad argument"] /\
    fromChannel 2 (mg_handled m) = ["Invalid arg tag for event 6"] /\
    length (mg_handled m) = 3.
Proof.
  eexists. split; [exact (rtc_nsteps_2 _ _ _ sample_fanin_run)|].
  split; [reflexivity|].
  destruct (merge_handles_each_error_once SampleMore.errChannels _
              (rtc_nsteps_2 _ _ _ sample_fanin_run)) as (_ & Hall).
  destruct (Hall eq_refl) as [Heach Hcount].
  split; [exact (Heach 0 _ eq_refl)|]. split; [exact (Heach 2 _ eq_refl)|].
  exact Hcount.
Defined.

Lemma merge_always_finishes_witness :
  exists m,
    nsteps mstep 11 (startMerge SampleMore.errChannels) m /\
    mg_returned m = true /\ mergeWork m = 0 /\
    2 * length (concat SampleMore.errChannels) + length SampleMore.errChannels + 2 = 11.
Proof.
  eexists. split; [exact sample_fanin_run|]. split; [reflexivity|].
  destruct (merge_always_finishes SampleMore.errChannels 11 _ sample_fanin_run)
    as (_ & Hwork & Hdone).
  split; [exact (proj2 Hdone eq_refl)|]. reflexivity.
Defined.
